(** * Revolver Roulette: the turn engine and the opponent policy

    A shallow embedding of the game logic of the repository
    (lib/types.ts, lib/constants.ts, lib/gameEngine.ts, lib/aiEngine.ts and
    the reducer of hooks/useGameState.ts), followed by the properties of the
    specification that were checked against it.

    Conventions of the embedding.
    - A TypeScript [number] that holds a count, a health or a time stamp is
      a [Z]; one that holds a probability, a random draw or an angle is a
      rational [Q]. The product of a draw with an integer, which selects an
      index, is the IEEE 754 binary64 product: the exact product rounded to
      the nearest double, ties to even ([round64], [times]). The literal
      [0.6] is the double it denotes ([double06]). The arithmetic of angles
      is exact.
    - [Math.random()] and [Date.now()] read an explicit [World]: a tape of
      draws with a cursor and a tape of clock readings with a cursor.
    - [AIMemory] objects live in a heap inside the [World]; a
      [Map<string, AIMemory>] maps keys to heap locations, so that the
      shallow copy [new Map(aiMemories)] shares the objects, as in the
      source.
    - An uncaught [TypeError] (a property read on [undefined] or [null])
      is the result [None] of a computation. *)

From Stdlib Require Import ZArith QArith Qround Qpower Lia Lqa.
From stdpp Require Import base option list strings gmap pretty.

Close Scope Q_scope.
Open Scope string_scope.

(** ** lib/types.ts *)

Module PlayerType.
Inductive t := HUMAN | AI.

Definition eqb (a b : t) : bool :=
  match a, b with
  | HUMAN, HUMAN | AI, AI => true
  | _, _ => false
  end.
End PlayerType.

Module GamePhase.
Inductive t := SETUP | SPINNING | CHOOSING_TARGET | SHOOTING | GAME_OVER.
End GamePhase.

Record Player := mkPlayer {
  id : string;
  name : string;
  type : PlayerType.t;
  health : Z;
  isAlive : bool;
  position : Z;
  avatar : string
}.

Record AIMemory := mkAIMemory {
  playerId : string;
  grudges : list string
}.

(** The [shooter] and [target] of a record are declared [string]; the reducer
    fills them from nullable fields through a non-null assertion, which does
    nothing at run time, so they are optional here. *)
Record TurnRecord := mkTurnRecord {
  timestamp : Z;
  shooter : option string;
  target : option string;
  wasBlank : bool;
  killed : bool
}.

(** Heap locations of [AIMemory] objects. *)
Definition loc := positive.

Record GameState := mkGameState {
  players : list Player;
  currentShooter : option string;
  selectedTarget : option string;
  phase : GamePhase.t;
  revolverRotation : Q;
  aiMemories : gmap string loc;
  turnHistory : list TurnRecord;
  gameStartTime : Z;
  lastSaveTime : Z
}.

Record GameConfig := mkGameConfig {
  playerCount : Z;
  startingHealth : Z;
  blankProbability : Q;
  playerShootChance : Q;
  aiShootChance : Q
}.

(** [Partial<GameState>]: every field may be absent. *)
Record PartialGameState := mkPartialGameState {
  players_opt : option (list Player);
  currentShooter_opt : option (option string);
  selectedTarget_opt : option (option string);
  phase_opt : option GamePhase.t;
  revolverRotation_opt : option Q;
  aiMemories_opt : option (gmap string loc);
  turnHistory_opt : option (list TurnRecord);
  gameStartTime_opt : option Z;
  lastSaveTime_opt : option Z
}.

(** ** Number literals

    A literal denotes the double nearest to it: [0.5] is [1/2]; [0.4], [0.6]
    and [0.8] are these. *)

(** The double that the literal [0.4] denotes, just above [2/5]. *)
Definition double04 : Q := 3602879701896397 # 9007199254740992.

(** The double that the literal [0.6] denotes, just below [3/5]. *)
Definition double06 : Q := 5404319552844595 # 9007199254740992.

(** The double that the literal [0.8] denotes, just above [4/5]. No double
    lies between [4/5] and it, so that [r < 0.8] on a double [r] is
    [r < 4/5] (lemma [literal_08]). *)
Definition double08 : Q := 3602879701896397 # 4503599627370496.

(** ** lib/constants.ts *)

Definition GAME_CONFIG : GameConfig :=
  {| playerCount := 5;
     startingHealth := 3;
     blankProbability := 1 # 2;
     playerShootChance := double04;
     aiShootChance := double06 |}.

Definition AI_NAMES : list string := ["Viktor"; "Natasha"; "Boris"; "Svetlana"].

Definition PLAYER_AVATARS : list string := ["🎯"; "🤖"; "🎲"; "🎰"; "🎪"].

(** ** The ambient world: heap, random source, clock *)

Record World := mkWorld {
  heap : gmap loc AIMemory;
  random : nat -> Q;
  drawn : nat;
  clock : nat -> Z;
  ticks : nat
}.

(** A computation reads and updates the world; [None] is an uncaught
    exception. *)
Definition Eff (A : Type) : Type := World -> option (A * World).

Definition ret {A} (a : A) : Eff A := fun w => Some (a, w).

Definition bind {A B} (c : Eff A) (k : A -> Eff B) : Eff B :=
  fun w => match c w with
           | Some (a, w') => k a w'
           | None => None
           end.

Definition throw {A} : Eff A := fun _ => None.

Notation "'let*' x ':=' c 'in' k" := (bind c (fun x => k))
  (at level 10, x name, c at level 100, k at level 200).
Notation "'let*' ' pat ':=' c 'in' k" :=
  (bind c (fun x => match x with pat => k end))
  (at level 10, pat pattern, c at level 100, k at level 200).

(** [Math.random()] *)
Definition mathRandom : Eff Q :=
  fun w => Some (random w (drawn w),
                 {| heap := heap w; random := random w; drawn := S (drawn w);
                    clock := clock w; ticks := ticks w |}).

(** [Date.now()] *)
Definition dateNow : Eff Z :=
  fun w => Some (clock w (ticks w),
                 {| heap := heap w; random := random w; drawn := drawn w;
                    clock := clock w; ticks := S (ticks w) |}).

Definition setHeap (h : gmap loc AIMemory) (w : World) : World :=
  {| heap := h; random := random w; drawn := drawn w;
     clock := clock w; ticks := ticks w |}.

(** Reading the object behind a reference; a reference always points to an
    allocated object, so a dangling one is a stuck computation. *)
Definition load (l : loc) : Eff AIMemory :=
  fun w => match heap w !! l with
           | Some m => Some (m, w)
           | None => None
           end.

(** A new object literal. *)
Definition alloc (m : AIMemory) : Eff loc :=
  fun w => let l := fresh (dom (heap w)) in
           Some (l, setHeap (<[l := m]> (heap w)) w).

(** In-place update of the object behind a reference. *)
Definition store (l : loc) (m : AIMemory) : Eff unit :=
  fun w => Some (tt, setHeap (<[l := m]> (heap w)) w).

(** ** JavaScript array helpers *)

(** [arr[i]] for a numeric index: [undefined] outside the array. *)
Definition arrayAt {A} (arr : list A) (i : Z) : option A :=
  if (i <? 0)%Z then None else arr !! Z.to_nat i.

(** [arr.findIndex(pred)]: the first index whose element satisfies [pred],
    [-1] when there is none. *)
Fixpoint findIndexFrom {A} (pred : A -> bool) (arr : list A) (i : Z) : Z :=
  match arr with
  | [] => (-1)%Z
  | x :: rest => if pred x then i else findIndexFrom pred rest (i + 1)%Z
  end.

Definition findIndex {A} (pred : A -> bool) (arr : list A) : Z :=
  findIndexFrom pred arr 0%Z.

(** [arr.includes(s)] on an array of strings. *)
Definition includes (arr : list string) (s : string) : bool :=
  existsb (String.eqb s) arr.

(** [r < c] and [r > c] on numbers. *)
Definition ltb (r c : Q) : bool := if Qlt_le_dec r c then true else false.
Definition gtb (r c : Q) : bool := ltb c r.

(** ** IEEE 754 binary64

    A [number] is a double: zero, or [m * 2^s] for an integer [m] below
    [2^53] and [s >= -1074]. The positive doubles of the binade
    [2^e <= x < 2^(e+1)] are the multiples of [2^(e-52)], of [2^-1074] in
    the subnormal range. *)

Definition pow2 (e : Z) : Q := Qpower 2 e.

(** The binade of a positive number: [Some e] with [2^e <= x < 2^(e+1)],
    found from the bit lengths of numerator and denominator; [None] for
    zero and for a negative number. *)
Definition binade (x : Q) : option Z :=
  let e0 := (Z.log2 (Qnum x) - Z.log2 (Zpos (Qden x)))%Z in
  if Qle_bool (pow2 e0) x && ltb x (pow2 (e0 + 1)) then Some e0
  else if Qle_bool (pow2 (e0 - 1)) x && ltb x (pow2 e0) then Some (e0 - 1)%Z
  else None.

(** The nearest integer, a tie going to the even one. *)
Definition roundHalfEven (m : Q) : Z :=
  let f := Qfloor m in
  match Qcompare (m - inject_Z f) (1 # 2) with
  | Lt => f
  | Gt => (f + 1)%Z
  | Eq => if Z.even f then f else (f + 1)%Z
  end.

(** The double nearest to a nonnegative number, ties to even. No number of
    the program comes near the overflow threshold [2^1024]. *)
Definition round64 (x : Q) : Q :=
  match binade x with
  | Some e =>
      let ulp := pow2 (Z.max (e - 52) (-1074)) in
      (inject_Z (roundHalfEven (x / ulp)) * ulp)%Q
  | None => x
  end.

(** A nonnegative double. *)
Definition isDouble (x : Q) : bool :=
  match binade x with
  | Some e => (e <=? 1023)%Z && Qeq_bool (round64 x) x
  | None => Qeq_bool x 0
  end.

(** [r * k] for a draw [r] and an integer [k]. [Math.random()] returns a
    double of [0, 1) and the integer is an array length or a small
    constant: the product is the binary64 product, the exact product
    rounded to the nearest double. A tape of draws may hold any rational;
    for a number that is not a double of [0, 1), or an integer beyond
    [2^53], the product is the exact one. *)
Definition times (r : Q) (k : Z) : Q :=
  if isDouble r && ltb r 1 && (0 <=? k)%Z && (k <=? 2 ^ 53)%Z
  then round64 (r * inject_Z k)
  else (r * inject_Z k)%Q.

(** [Math.floor(r * n)] for an array length [n]. *)
Definition floorTimes (r : Q) (n : nat) : Z :=
  Qfloor (times r (Z.of_nat n)).

(** [x === y] on nullable strings. *)
Definition optEqb (x y : option string) : bool :=
  match x, y with
  | Some a, Some b => String.eqb a b
  | None, None => true
  | _, _ => false
  end.

(** ** lib/gameEngine.ts *)

Module GameEngine.

Definition initializeGame (config : GameConfig) : Eff GameState :=
  let players :=
    {| id := "player-0";
       name := "You";
       type := PlayerType.HUMAN;
       health := startingHealth config;
       isAlive := true;
       position := 0;
       avatar := default "" (PLAYER_AVATARS !! 0%nat) |}
    :: imap (fun i name =>
               {| id := "ai-" +:+ pretty (i + 1)%nat;
                  name := name;
                  type := PlayerType.AI;
                  health := startingHealth config;
                  isAlive := true;
                  position := Z.of_nat (i + 1);
                  avatar := default "" (PLAYER_AVATARS !! (i + 1)%nat) |})
            AI_NAMES in
  let* start := dateNow in
  let* saved := dateNow in
  ret {| players := players;
         currentShooter := None;
         selectedTarget := None;
         phase := GamePhase.SETUP;
         revolverRotation := 0;
         aiMemories := ∅;
         turnHistory := [];
         gameStartTime := start;
         lastSaveTime := saved |}.

(** The result object [{ newRotation, shooterId }]. *)
Record SpinResult := mkSpinResult {
  newRotation : Q;
  shooterId : string
}.

Definition spinRevolver (state : GameState) : Eff SpinResult :=
  let alivePlayers := List.filter isAlive (players state) in
  let* r := mathRandom in
  let randomIndex := floorTimes r (length alivePlayers) in
  match arrayAt alivePlayers randomIndex with
  | None => throw
  | Some shooter =>
      let rotationPerPlayer :=
        (360 / inject_Z (Z.of_nat (length (players state))))%Q in
      let targetRotation := (inject_Z (position shooter) * rotationPerPlayer)%Q in
      let* r2 := mathRandom in
      let spins := (3 + Qfloor (times r2 3))%Z in
      let finalRotation := (inject_Z spins * 360 + targetRotation)%Q in
      ret {| newRotation := finalRotation; shooterId := id shooter |}
  end.

Definition attemptShot : Eff bool :=
  let* r := mathRandom in
  ret (gtb r (1 # 2)).

Definition applyDamage (player : Player) : Player :=
  let newHealth := (health player - 1)%Z in
  {| id := id player;
     name := name player;
     type := type player;
     health := newHealth;
     isAlive := (0 <? newHealth)%Z;
     position := position player;
     avatar := avatar player |}.

(** The result object [{ isOver, winner }]. *)
Record GameOverCheck := mkGameOverCheck {
  isOver : bool;
  winner : option Player
}.

Definition checkGameOver (players : list Player) : GameOverCheck :=
  let alivePlayers := List.filter isAlive players in
  if (length alivePlayers =? 1)%nat then
    {| isOver := true; winner := alivePlayers !! 0%nat |}
  else if (length alivePlayers =? 0)%nat then
    {| isOver := true; winner := None |}
  else
    {| isOver := false; winner := None |}.

Definition recordTurn (state : GameState) (shooter target : option string)
    (wasBlank killed : bool) : Eff GameState :=
  let* now := dateNow in
  let newHistory :=
    {| timestamp := now; shooter := shooter; target := target;
       wasBlank := wasBlank; killed := killed |} in
  ret {| players := players state;
         currentShooter := currentShooter state;
         selectedTarget := selectedTarget state;
         phase := phase state;
         revolverRotation := revolverRotation state;
         aiMemories := aiMemories state;
         turnHistory := turnHistory state ++ [newHistory];
         gameStartTime := gameStartTime state;
         lastSaveTime := lastSaveTime state |}.

End GameEngine.


(** ** Record updates: [{ ...state, field: value }] *)

Definition set_players (v : list Player) (s : GameState) : GameState :=
  {| players := v; currentShooter := currentShooter s;
     selectedTarget := selectedTarget s; phase := phase s;
     revolverRotation := revolverRotation s; aiMemories := aiMemories s;
     turnHistory := turnHistory s; gameStartTime := gameStartTime s;
     lastSaveTime := lastSaveTime s |}.

Definition set_currentShooter (v : option string) (s : GameState) : GameState :=
  {| players := players s; currentShooter := v;
     selectedTarget := selectedTarget s; phase := phase s;
     revolverRotation := revolverRotation s; aiMemories := aiMemories s;
     turnHistory := turnHistory s; gameStartTime := gameStartTime s;
     lastSaveTime := lastSaveTime s |}.

Definition set_selectedTarget (v : option string) (s : GameState) : GameState :=
  {| players := players s; currentShooter := currentShooter s;
     selectedTarget := v; phase := phase s;
     revolverRotation := revolverRotation s; aiMemories := aiMemories s;
     turnHistory := turnHistory s; gameStartTime := gameStartTime s;
     lastSaveTime := lastSaveTime s |}.

Definition set_phase (v : GamePhase.t) (s : GameState) : GameState :=
  {| players := players s; currentShooter := currentShooter s;
     selectedTarget := selectedTarget s; phase := v;
     revolverRotation := revolverRotation s; aiMemories := aiMemories s;
     turnHistory := turnHistory s; gameStartTime := gameStartTime s;
     lastSaveTime := lastSaveTime s |}.

Definition set_revolverRotation (v : Q) (s : GameState) : GameState :=
  {| players := players s; currentShooter := currentShooter s;
     selectedTarget := selectedTarget s; phase := phase s;
     revolverRotation := v; aiMemories := aiMemories s;
     turnHistory := turnHistory s; gameStartTime := gameStartTime s;
     lastSaveTime := lastSaveTime s |}.

Definition set_aiMemories (v : gmap string loc) (s : GameState) : GameState :=
  {| players := players s; currentShooter := currentShooter s;
     selectedTarget := selectedTarget s; phase := phase s;
     revolverRotation := revolverRotation s; aiMemories := v;
     turnHistory := turnHistory s; gameStartTime := gameStartTime s;
     lastSaveTime := lastSaveTime s |}.

(** [{ ...state, ...payload }] for a partial payload. *)
Definition merge (s : GameState) (p : PartialGameState) : GameState :=
  {| players := default (players s) (players_opt p);
     currentShooter := default (currentShooter s) (currentShooter_opt p);
     selectedTarget := default (selectedTarget s) (selectedTarget_opt p);
     phase := default (phase s) (phase_opt p);
     revolverRotation := default (revolverRotation s) (revolverRotation_opt p);
     aiMemories := default (aiMemories s) (aiMemories_opt p);
     turnHistory := default (turnHistory s) (turnHistory_opt p);
     gameStartTime := default (gameStartTime s) (gameStartTime_opt p);
     lastSaveTime := default (lastSaveTime s) (lastSaveTime_opt p) |}.

(** ** lib/aiEngine.ts *)

(** [arr.sort((a, b) => a.health - b.health)]: a stable sort by increasing
    health. *)
Fixpoint insertByHealth (p : Player) (sorted : list Player) : list Player :=
  match sorted with
  | [] => [p]
  | q :: rest =>
      if (health p <=? health q)%Z then p :: q :: rest
      else q :: insertByHealth p rest
  end.

Definition sortByHealth (arr : list Player) : list Player :=
  foldr insertByHealth [] arr.

Module AIEngine.

(** [decideTarget] leaves through one of four [return] statements. The
    code that follows the revenge block is [afterRevenge]; the code that
    follows the human block is [afterHuman]. *)

(** Priority 3, then the random pick that ends the function. *)
Definition afterHuman (alivePlayers : list Player) : Eff string :=
  let aiTargets :=
    List.filter (fun p => PlayerType.eqb (type p) PlayerType.AI) alivePlayers in
  if (0 <? length aiTargets)%nat then
    match sortByHealth aiTargets !! 0%nat with
    | Some weakest => ret (id weakest)
    | None => throw
    end
  else
    let* r := mathRandom in
    match arrayAt alivePlayers (floorTimes r (length alivePlayers)) with
    | Some p => ret (id p)
    | None => throw
    end.

(** Priority 2, then [afterHuman]. *)
Definition afterRevenge (alivePlayers : list Player) : Eff string :=
  let humanPlayer :=
    List.find (fun p => PlayerType.eqb (type p) PlayerType.HUMAN) alivePlayers in
  match humanPlayer with
  | Some human =>
      let* r := mathRandom in
      if ltb r double06 then ret (id human) else afterHuman alivePlayers
  | None => afterHuman alivePlayers
  end.

(** The test [Math.random() < 0.8] is written against [4/5]: the two
    decide the same on every double ([literal_08]). *)
Definition decideTarget (aiPlayer : Player) (allPlayers : list Player)
    (aiMemories : gmap string loc) (_config : GameConfig) : Eff string :=
  let* memory :=
    match aiMemories !! id aiPlayer with
    | Some l => let* m := load l in ret (Some m)
    | None => ret None
    end in
  let alivePlayers :=
    List.filter (fun p => isAlive p && negb (String.eqb (id p) (id aiPlayer)))
                allPlayers in
  (* Priority 1: revenge *)
  match memory with
  | Some memory =>
      if (0 <? length (grudges memory))%nat then
        let grudgeTargets :=
          List.filter (fun p => includes (grudges memory) (id p)) alivePlayers in
        if (0 <? length grudgeTargets)%nat then
          let* r := mathRandom in
          if ltb r (4 # 5) then
            let* r2 := mathRandom in
            match arrayAt grudgeTargets (floorTimes r2 (length grudgeTargets)) with
            | Some p => ret (id p)
            | None => throw
            end
          else afterRevenge alivePlayers
        else afterRevenge alivePlayers
      else afterRevenge alivePlayers
  | None => afterRevenge alivePlayers
  end.

Definition updateMemory (aiMemories : gmap string loc)
    (targetId : option string) (shooterId : string) (wasBlank : bool)
    : Eff (gmap string loc) :=
  let newMemories := aiMemories in
  if wasBlank then
    match targetId with
    | None => throw
    | Some targetId =>
        if String.prefix "ai-" targetId then
          let* memory :=
            match newMemories !! targetId with
            | Some l => ret l
            | None => alloc {| playerId := targetId; grudges := [] |}
            end in
          let* obj := load memory in
          let* _ :=
            if negb (includes (grudges obj) shooterId) then
              store memory {| playerId := playerId obj;
                              grudges := grudges obj ++ [shooterId] |}
            else ret tt in
          ret (<[targetId := memory]> newMemories)
        else ret newMemories
    end
  else ret newMemories.

(** The states handed to [onUpdate], in order. The waits only pace the
    display; the first one consumes a random draw. *)
Definition executeAITurn (state : GameState) (config : GameConfig)
    : Eff (list GameState) :=
  match List.find (fun p => optEqb (Some (id p)) (currentShooter state))
                  (players state) with
  | None => ret []
  | Some shooter =>
      if negb (PlayerType.eqb (type shooter) PlayerType.AI) then ret []
      else
        let* _ := mathRandom in
        let* targetId :=
          decideTarget shooter (players state) (aiMemories state) config in
        let update1 :=
          set_phase GamePhase.CHOOSING_TARGET
                    (set_selectedTarget (Some targetId) state) in
        let* isHit := GameEngine.attemptShot in
        let targetIndex :=
          findIndex (fun p => String.eqb (id p) targetId) (players state) in
        let target := arrayAt (players state) targetIndex in
        let newPlayers := players state in
        let killed := false in
        let* '(newPlayers, killed) :=
          if isHit then
            match target with
            | None => throw
            | Some target =>
                let damaged := GameEngine.applyDamage target in
                ret (<[Z.to_nat targetIndex := damaged]> newPlayers,
                     negb (isAlive damaged))
            end
          else ret (newPlayers, killed) in
        let* newMemories :=
          if negb isHit then
            updateMemory (aiMemories state) (Some targetId) (id shooter) true
          else ret (aiMemories state) in
        let* newState :=
          GameEngine.recordTurn
            (set_phase GamePhase.SHOOTING
               (set_aiMemories newMemories (set_players newPlayers state)))
            (Some (id shooter)) (Some targetId) (negb isHit) killed in
        let gameOverCheck := GameEngine.checkGameOver newPlayers in
        let update3 :=
          if GameEngine.isOver gameOverCheck then
            set_phase GamePhase.GAME_OVER newState
          else
            set_selectedTarget None
              (set_currentShooter None (set_phase GamePhase.SETUP newState)) in
        ret [update1; newState; update3]
  end.

End AIEngine.

(** ** hooks/useGameState.ts: the reducer *)

Inductive GameAction :=
| INIT_GAME (payload : GameConfig)
| LOAD_GAME (payload : GameState)
| SPIN_REVOLVER
| SET_SPINNER_RESULT (rotation : Q) (shooterId : string)
| SELECT_TARGET (payload : string)
| SHOOT
| SHOT_RESULT (isHit : bool)
| NEXT_TURN
| GAME_OVER
| UPDATE_STATE (payload : PartialGameState).

Definition gameReducer (state : GameState) (action : GameAction) : Eff GameState :=
  match action with
  | INIT_GAME payload => GameEngine.initializeGame payload
  | LOAD_GAME payload => ret payload
  | SPIN_REVOLVER => ret (set_phase GamePhase.SPINNING state)
  | SET_SPINNER_RESULT rotation shooterId =>
      ret (set_phase GamePhase.CHOOSING_TARGET
             (set_currentShooter (Some shooterId)
                (set_revolverRotation rotation state)))
  | SELECT_TARGET payload => ret (set_selectedTarget (Some payload) state)
  | SHOOT => ret (set_phase GamePhase.SHOOTING state)
  | SHOT_RESULT isHit =>
      let targetIndex :=
        findIndex (fun p => optEqb (Some (id p)) (selectedTarget state))
                  (players state) in
      let target := arrayAt (players state) targetIndex in
      let newPlayers := players state in
      let killed := false in
      let* '(newPlayers, killed) :=
        if isHit then
          match target with
          | None => throw
          | Some target =>
              let damaged := GameEngine.applyDamage target in
              ret (<[Z.to_nat targetIndex := damaged]> newPlayers,
                   negb (isAlive damaged))
          end
        else ret (newPlayers, killed) in
      let* newMemories :=
        if negb isHit && optEqb (currentShooter state) (Some "player-0") then
          AIEngine.updateMemory (aiMemories state) (selectedTarget state)
                                "player-0" true
        else ret (aiMemories state) in
      let* recorded :=
        GameEngine.recordTurn
          (set_aiMemories newMemories (set_players newPlayers state))
          (currentShooter state) (selectedTarget state) (negb isHit) killed in
      ret recorded
  | NEXT_TURN =>
      ret (set_selectedTarget None
             (set_currentShooter None (set_phase GamePhase.SETUP state)))
  | GAME_OVER => ret (set_phase GamePhase.GAME_OVER state)
  | UPDATE_STATE payload => ret (merge state payload)
  end.

(** * Vocabulary of the statements *)

(** A draw of [Math.random()] lies in the unit interval, 1 excluded. *)
Definition unitDraw (r : Q) : Prop := (0 <= r)%Q /\ (r < 1)%Q.

(** Every draw on the tape of a world is a unit draw. *)
Definition validDraws (w : World) : Prop := forall n, unitDraw (random w n).

(** The relative error bound of one rounding: half the distance between
    one and the double below it. *)
Definition epsilon : Q := pow2 (-53).

(** An empty heap, every draw equal to 1/4, a clock that counts its reads. *)
Definition exampleWorld : World :=
  {| heap := ∅; random := fun _ => (1 # 4)%Q; drawn := 0;
     clock := fun n => Z.of_nat n; ticks := 0 |}.

(** The world in which the next draw is [r]. *)
Definition withDraw (r : Q) (w : World) : World :=
  {| heap := heap w;
     random := fun n => if (n =? drawn w)%nat then r else random w n;
     drawn := drawn w; clock := clock w; ticks := ticks w |}.

Definition withPlayerCount (n : Z) (config : GameConfig) : GameConfig :=
  {| playerCount := n; startingHealth := startingHealth config;
     blankProbability := blankProbability config;
     playerShootChance := playerShootChance config;
     aiShootChance := aiShootChance config |}.

Definition examplePlayer (i : string) (t : PlayerType.t) (h : Z) : Player :=
  {| id := i; name := i; type := t; health := h; isAlive := (0 <? h)%Z;
     position := 0; avatar := "" |}.

(** Two states that agree on every field but the phase. *)
Definition sameExceptPhase (s s' : GameState) : Prop :=
  players s' = players s /\
  currentShooter s' = currentShooter s /\
  selectedTarget s' = selectedTarget s /\
  revolverRotation s' = revolverRotation s /\
  aiMemories s' = aiMemories s /\
  turnHistory s' = turnHistory s /\
  gameStartTime s' = gameStartTime s /\
  lastSaveTime s' = lastSaveTime s.

(** Two states that agree on every field but the selected target. *)
Definition sameExceptTarget (s s' : GameState) : Prop :=
  players s' = players s /\
  currentShooter s' = currentShooter s /\
  phase s' = phase s /\
  revolverRotation s' = revolverRotation s /\
  aiMemories s' = aiMemories s /\
  turnHistory s' = turnHistory s /\
  gameStartTime s' = gameStartTime s /\
  lastSaveTime s' = lastSaveTime s.

(** Whether the shot is a blank when the next draw is [r]: both callers of
    [attemptShot] read its result as [isHit] and record [!isHit] as the
    blank flag. *)
Definition blankWhen (w : World) (r : Q) : bool :=
  match GameEngine.attemptShot (withDraw r w) with
  | Some (isHit, _) => negb isHit
  | None => false
  end.

(** The draws on which [blank] holds form, up to its end points, an interval
    of length [p] inside the unit interval: a region of measure [p]. *)
Definition blankRegionOf (blank : Q -> bool) (p : Q) : Prop :=
  exists a b : Q,
    (0 <= a)%Q /\ (a <= b)%Q /\ (b <= 1)%Q /\ (b - a == p)%Q /\
    forall r, unitDraw r ->
      ((a < r)%Q /\ (r < b)%Q -> blank r = true) /\
      (blank r = true -> (a <= r)%Q /\ (r <= b)%Q).

Definition quarterBlankConfig : GameConfig :=
  {| playerCount := 5; startingHealth := 3; blankProbability := 1 # 4;
     playerShootChance := 2 # 5; aiShootChance := 3 # 5 |}.

(** The world after one more draw. *)
Definition afterDraw (w : World) : World :=
  {| heap := heap w; random := random w; drawn := S (drawn w);
     clock := clock w; ticks := ticks w |}.

(** From [w] to [w'] only draws were consumed: the heap, both tapes and
    the clock cursor are the same. *)
Definition onlyDraws (w w' : World) : Prop :=
  heap w' = heap w /\ random w' = random w /\
  clock w' = clock w /\ ticks w' = ticks w /\ (drawn w <= drawn w')%nat.

(** The reference that the map holds under key [k], if any, points to an
    object of the heap. References of the source always do. *)
Definition closedAt (w : World) (m : gmap string loc) (k : string) : Prop :=
  forall l, m !! k = Some l -> is_Some (heap w !! l).

Definition examplePlayers : list Player :=
  [examplePlayer "player-0" PlayerType.HUMAN 3;
   examplePlayer "ai-1" PlayerType.AI 3;
   examplePlayer "ai-2" PlayerType.AI 1].

(** Dispatching a sequence of actions, as [useReducer] does. *)
Fixpoint dispatchAll (state : GameState) (actions : list GameAction)
    : Eff GameState :=
  match actions with
  | [] => ret state
  | a :: rest => let* next := gameReducer state a in dispatchAll next rest
  end.

(** A session under a configuration: the reducer starts from
    [initializeGame(config)], processes the actions, and the armed actor is
    then drawn on the current state. *)
Definition drawAfter (config : GameConfig) (actions : list GameAction)
    : Eff GameEngine.SpinResult :=
  let* start := GameEngine.initializeGame config in
  let* state := dispatchAll start actions in
  GameEngine.spinRevolver state.

Definition withBias (human ai : Q) (config : GameConfig) : GameConfig :=
  {| playerCount := playerCount config;
     startingHealth := startingHealth config;
     blankProbability := blankProbability config;
     playerShootChance := human;
     aiShootChance := ai |}.

(** The grudge set that the map holds for [victim] in the heap of [w]; empty
    when the map has no entry for that key. *)
Definition grudgesOf (w : World) (m : gmap string loc) (victim : string)
    : list string :=
  match m !! victim with
  | Some l => match heap w !! l with
              | Some memory => grudges memory
              | None => []
              end
  | None => []
  end.

(** What [push] leaves in the array when it is guarded by [includes]. *)
Definition pushOnce (arr : list string) (s : string) : list string :=
  if includes arr s then arr else arr ++ [s].

(** The player that a shot resolution of the reducer damages: [target]. *)
Definition selectedPlayer (s : GameState) : option Player :=
  arrayAt (players s)
          (findIndex (fun p => optEqb (Some (id p)) (selectedTarget s)) (players s)).

(** The players after a resolution: the same array, or the array with one
    element replaced by its damaged copy. *)
Definition hitOrSame (ps ps' : list Player) : Prop :=
  ps' = ps \/
  exists (j : nat) (q : Player),
    ps !! j = Some q /\ ps' = <[j := GameEngine.applyDamage q]> ps.

(** The actions of a running session. [INIT_GAME], [LOAD_GAME] and
    [UPDATE_STATE] replace the state by their payload: they start or restore
    a session, or deliver the states computed by [executeAITurn]. *)
Definition sessionAction (a : GameAction) : bool :=
  match a with
  | INIT_GAME _ | LOAD_GAME _ | UPDATE_STATE _ => false
  | _ => true
  end.

(** Stored health is not negative and the alive flag says whether it is
    positive. *)
Definition healthy (ps : list Player) : Prop :=
  Forall (fun p => (0 <= health p)%Z /\ isAlive p = (0 <? health p)%Z) ps.

Definition exampleState : GameState :=
  {| players := examplePlayers; currentShooter := Some "player-0";
     selectedTarget := Some "ai-2"; phase := GamePhase.SHOOTING;
     revolverRotation := 0; aiMemories := ∅; turnHistory := [];
     gameStartTime := 0; lastSaveTime := 0 |}.

(** One step of a session: a session action through the reducer, or the
    passage from one state to the next among those that an AI turn, run on
    the current state, hands to [onUpdate]. *)
Inductive sessionStep : GameState -> GameState -> Prop :=
| step_action (s : GameState) (a : GameAction) (w : World)
    (s' : GameState) (w' : World) :
    sessionAction a = true ->
    gameReducer s a w = Some (s', w') ->
    sessionStep s s'
| step_ai (s : GameState) (config : GameConfig) (w : World)
    (us : list GameState) (w' : World) (i : nat) (u u' : GameState) :
    AIEngine.executeAITurn s config w = Some (us, w') ->
    (s :: us) !! i = Some u ->
    (s :: us) !! S i = Some u' ->
    sessionStep u u'.

(** The states of a session: those of a new game and those reached from
    them step by step. *)
Inductive reachable : GameState -> Prop :=
| reach_init (config : GameConfig) (w : World) (s : GameState) (w' : World) :
    GameEngine.initializeGame config w = Some (s, w') -> reachable s
| reach_step (s s' : GameState) :
    reachable s -> sessionStep s s' -> reachable s'.

(** An actor that is not alive has no health left. *)
Definition buried (ps : list Player) : Prop :=
  Forall (fun p => isAlive p = false -> (health p <= 0)%Z) ps.

Definition aliveCount (ps : list Player) : nat :=
  length (List.filter isAlive ps).

(** Same actors at the same seats, and none of them came back to life. *)
Definition noResurrection (ps ps' : list Player) : Prop :=
  length ps' = length ps /\
  forall (i : nat) (p : Player),
    ps !! i = Some p ->
    exists p', ps' !! i = Some p' /\ id p' = id p /\
               (isAlive p = false -> isAlive p' = false).

(** Every reference of the map points to an object of the heap. *)
Definition closed (w : World) (m : gmap string loc) : Prop :=
  forall k, closedAt w m k.

(** A world whose second draw is 7/10 and whose other draws are 1/4. *)
Definition retaliationWorld : World :=
  {| heap := ∅;
     random := fun n => if (n =? 1)%nat then (7 # 10)%Q else (1 # 4)%Q;
     drawn := 0; clock := fun n => Z.of_nat n; ticks := 0 |}.

Definition aiArmedState : GameState :=
  {| players := examplePlayers; currentShooter := Some "ai-1";
     selectedTarget := None; phase := GamePhase.CHOOSING_TARGET;
     revolverRotation := 0; aiMemories := ∅; turnHistory := [];
     gameStartTime := 0; lastSaveTime := 0 |}.

(** * The rest of the code *)

(** ** lib/utils.ts *)

Module Utils.

(** [min] and [max] are integers. *)
Definition randomInt (min max : Z) : Eff Z :=
  let* r := mathRandom in
  ret (Qfloor (times r (max - min + 1)) + min)%Z.

(** The result is [undefined] when the index falls outside the array. *)
Definition randomElement {A} (array : list A) : Eff (option A) :=
  let* r := mathRandom in
  ret (arrayAt array (floorTimes r (length array))).

(** The body of the loop of [shuffle] and the iterations that follow it,
    for the counter [i] down to 1. A draw of [Math.random()] gives an index
    [j] between 0 and [i]. For a number outside the unit interval the
    source would store [undefined] or write outside the array, which a list
    of [A] cannot hold: the computation is stuck there. *)
Fixpoint shuffleLoop {A} (i : nat) (shuffled : list A) : Eff (list A) :=
  match i with
  | O => ret shuffled
  | S i' =>
      let* r := mathRandom in
      let j := floorTimes r (i + 1) in
      match arrayAt shuffled (Z.of_nat i), arrayAt shuffled j with
      | Some atI, Some atJ =>
          shuffleLoop i' (<[Z.to_nat j := atI]> (<[i := atJ]> shuffled))
      | _, _ => throw
      end
  end.

Definition shuffle {A} (array : list A) : Eff (list A) :=
  let shuffled := array in
  shuffleLoop (length shuffled - 1) shuffled.

End Utils.

(** ** components/ui/HealthBar.tsx *)

Module HealthBar.

(** [Array.from({ length: max }, (_, i) => i < current)]: one flag per
    heart, set when the heart is filled. A negative length gives the empty
    array. *)
Definition hearts (current max : Z) : list bool :=
  map (fun i => (Z.of_nat i <? current)%Z) (seq 0 (Z.to_nat max)).

End HealthBar.

(** ** components/game/GameStatus.tsx *)

Definition phaseEqb (a b : GamePhase.t) : bool :=
  match a, b with
  | GamePhase.SETUP, GamePhase.SETUP
  | GamePhase.SPINNING, GamePhase.SPINNING
  | GamePhase.CHOOSING_TARGET, GamePhase.CHOOSING_TARGET
  | GamePhase.SHOOTING, GamePhase.SHOOTING
  | GamePhase.GAME_OVER, GamePhase.GAME_OVER => true
  | _, _ => false
  end.

(** The character that delimits the button name in the Setup message. *)
Definition doubleQuote : string := String (Ascii.ascii_of_nat 34) EmptyString.

Module GameStatus.

(** [`${x?.name}`]: the text "undefined" when there is no such player. *)
Definition nameOrUndefined (p : option Player) : string :=
  match p with
  | Some p => name p
  | None => "undefined"
  end.

Definition getStatusMessage (state : GameState) : string :=
  let shooter :=
    List.find (fun p => optEqb (Some (id p)) (currentShooter state))
              (players state) in
  match phase state with
  | GamePhase.SETUP =>
      "Press " ++ doubleQuote ++ "Spin Revolver" ++ doubleQuote
        ++ " to begin the turn"
  | GamePhase.SPINNING => "Spinning..."
  | GamePhase.CHOOSING_TARGET =>
      match shooter with
      | Some p =>
          if PlayerType.eqb (type p) PlayerType.HUMAN then "Choose your target!"
          else nameOrUndefined shooter ++ " is choosing a target..."
      | None => nameOrUndefined shooter ++ " is choosing a target..."
      end
  | GamePhase.SHOOTING => "BANG!"
  | GamePhase.GAME_OVER =>
      let winner := List.find isAlive (players state) in
      match winner with
      | Some winner => name winner ++ " wins!"
      | None => "Everyone is dead!"
      end
  end.

End GameStatus.

(** ** components/game/GameControls.tsx *)

Module GameControls.

Definition canSpin (state : GameState) : bool :=
  phaseEqb (phase state) GamePhase.SETUP.

Definition canShoot (state : GameState) : bool :=
  phaseEqb (phase state) GamePhase.CHOOSING_TARGET
  && optEqb (currentShooter state) (Some "player-0")
  && negb (optEqb (selectedTarget state) None).

End GameControls.

(** ** contexts/GameContext.tsx *)

(** A whole state passed where a [Partial<GameState>] is expected. *)
Definition fullPayload (s : GameState) : PartialGameState :=
  {| players_opt := Some (players s);
     currentShooter_opt := Some (currentShooter s);
     selectedTarget_opt := Some (selectedTarget s);
     phase_opt := Some (phase s);
     revolverRotation_opt := Some (revolverRotation s);
     aiMemories_opt := Some (aiMemories s);
     turnHistory_opt := Some (turnHistory s);
     gameStartTime_opt := Some (gameStartTime s);
     lastSaveTime_opt := Some (lastSaveTime s) |}.

(** The callback given to [executeAITurn]: each state it receives is
    dispatched as an [UPDATE_STATE]. *)
Fixpoint deliver (current : GameState) (updates : list GameState)
    : Eff GameState :=
  match updates with
  | [] => ret current
  | u :: rest =>
      let* next := gameReducer current (UPDATE_STATE (fullPayload u)) in
      deliver next rest
  end.

(** The callbacks of the provider. [state] is the state of the render in
    which the callback was made, the one the reducer holds when the button
    is pressed; the callback keeps reading it after its own dispatches. The
    timers only order the steps, and no other callback runs in between.
    [None] is an error thrown inside a timer. *)
Module GameContext.

Definition selectTarget (state : GameState) (targetId : string) : Eff GameState :=
  gameReducer state (SELECT_TARGET targetId).

Definition startNewGame (state : GameState) (config : GameConfig) : Eff GameState :=
  gameReducer state (INIT_GAME config).

Definition shoot (state : GameState) : Eff GameState :=
  let* shooting := gameReducer state SHOOT in
  let* isHit := GameEngine.attemptShot in
  let* resolved := gameReducer shooting (SHOT_RESULT isHit) in
  let gameOverCheck := GameEngine.checkGameOver (players state) in
  if GameEngine.isOver gameOverCheck then gameReducer resolved GAME_OVER
  else gameReducer resolved NEXT_TURN.

Definition spinRevolver (state : GameState) (config : GameConfig) : Eff GameState :=
  let* spinning := gameReducer state SPIN_REVOLVER in
  let* result := GameEngine.spinRevolver state in
  let* armed :=
    gameReducer spinning
      (SET_SPINNER_RESULT (GameEngine.newRotation result)
                          (GameEngine.shooterId result)) in
  let shooter :=
    List.find (fun p => String.eqb (id p) (GameEngine.shooterId result))
              (players state) in
  match shooter with
  | Some p =>
      if PlayerType.eqb (type p) PlayerType.AI then
        let* updates := AIEngine.executeAITurn state config in
        deliver armed updates
      else ret armed
  | None => ret armed
  end.

End GameContext.

(** ** components/game/PlayerCard.tsx *)

Module PlayerCard.

Definition canBeTargeted (state : GameState) (player : Player) : bool :=
  phaseEqb (phase state) GamePhase.CHOOSING_TARGET
  && optEqb (currentShooter state) (Some "player-0")
  && isAlive player
  && negb (String.eqb (id player) "player-0").

(** [onClick]: the state the reducer holds after a click on the card. *)
Definition onClick (state : GameState) (player : Player) : Eff GameState :=
  if canBeTargeted state player then GameContext.selectTarget state (id player)
  else ret state.

End PlayerCard.

(** * Vocabulary of the further statements *)

(** The memory map and the heap fit together: every key starts with "ai-"
    and refers to an object of the heap that carries the key as its
    [playerId] and holds at least one grudge, none of them twice. *)
Definition memoryInv (m : gmap string loc) (w : World) : Prop :=
  forall k l, m !! k = Some l ->
    String.prefix "ai-" k = true /\
    exists memory, heap w !! l = Some memory /\ playerId memory = k /\
                   grudges memory <> [] /\ List.NoDup (grudges memory).

(** A state of a session together with the world it was reached in. Between
    two steps the random source and the clock may be read by anyone; the
    heap is only written by the steps. *)
Inductive sessionRun : GameState -> World -> Prop :=
| run_init (config : GameConfig) (w : World) (s : GameState) (w' : World) :
    GameEngine.initializeGame config w = Some (s, w') ->
    sessionRun s w'
| run_action (s : GameState) (w : World) (a : GameAction)
    (s' : GameState) (w' : World) :
    sessionRun s w -> sessionAction a = true ->
    gameReducer s a w = Some (s', w') ->
    sessionRun s' w'
| run_ai (s : GameState) (w : World) (config : GameConfig)
    (us : list GameState) (w' : World) (u : GameState) :
    sessionRun s w ->
    AIEngine.executeAITurn s config w = Some (us, w') ->
    In u us ->
    sessionRun u w'
| run_reads (s : GameState) (w w' : World) :
    sessionRun s w -> heap w' = heap w -> sessionRun s w'.

(** The fields of an actor that damage does not touch. *)
Definition seat (p : Player) : string * string * PlayerType.t * Z * string :=
  (id p, name p, type p, position p, avatar p).

(** From one array of players to the other only the actor at seat [j] may
    differ, and that actor keeps its seat fields and has the same health or
    one point less. *)
Definition damagedAt (j : nat) (ps ps' : list Player) : Prop :=
  length ps' = length ps /\
  (forall i, i <> j -> ps' !! i = ps !! i) /\
  forall p, ps !! j = Some p ->
    exists p', ps' !! j = Some p' /\ seat p' = seat p /\
               (health p' = health p \/ health p' = (health p - 1)%Z).

(** The seats of a new game. *)
Definition initialSeats : list (string * string * PlayerType.t * Z * string) :=
  [("player-0", "You", PlayerType.HUMAN, 0%Z, "🎯");
   ("ai-1", "Viktor", PlayerType.AI, 1%Z, "🤖");
   ("ai-2", "Natasha", PlayerType.AI, 2%Z, "🎲");
   ("ai-3", "Boris", PlayerType.AI, 3%Z, "🎰");
   ("ai-4", "Svetlana", PlayerType.AI, 4%Z, "🎪")].


(** The alive actors other than [aiPlayer], as [decideTarget] computes
    them. *)
Definition aliveOthers (aiPlayer : Player) (allPlayers : list Player)
    : list Player :=
  List.filter (fun p => isAlive p && negb (String.eqb (id p) (id aiPlayer)))
              allPlayers.

(** Two actors left, the human armed, "ai-1" on its last health point and
    selected. *)
Definition lastDuelState : GameState :=
  {| players := [examplePlayer "player-0" PlayerType.HUMAN 2;
                 examplePlayer "ai-1" PlayerType.AI 1;
                 examplePlayer "ai-2" PlayerType.AI 0];
     currentShooter := Some "player-0"; selectedTarget := Some "ai-1";
     phase := GamePhase.CHOOSING_TARGET; revolverRotation := 0;
     aiMemories := ∅; turnHistory := []; gameStartTime := 0;
     lastSaveTime := 0 |}.

(** A world whose draws are all 3/4. *)
Definition hitWorld : World :=
  {| heap := ∅; random := fun _ => (3 # 4)%Q; drawn := 0;
     clock := fun n => Z.of_nat n; ticks := 0 |}.



(** A memory in which "ai-1" holds a grudge against "player-0", and a world
    whose heap carries it; every draw is 1/4. *)
Definition grudgeMemories : gmap string loc := {[ "ai-1" := 1%positive ]}.

Definition grudgeWorld : World :=
  {| heap := {[ 1%positive := {| playerId := "ai-1"; grudges := ["player-0"] |} ]};
     random := fun _ => (1 # 4)%Q; drawn := 0;
     clock := fun n => Z.of_nat n; ticks := 0 |}.


(** * Properties *)

(** ** Helper lemmas on numbers and arrays *)

Lemma ltb_true (r c : Q) : ltb r c = true <-> (r < c)%Q.
Proof.
  unfold ltb. destruct (Qlt_le_dec r c) as [Hlt | Hge]; split; intros H; try done.
  exfalso. exact (Qlt_not_le _ _ H Hge).
Qed.

Lemma ltb_false (r c : Q) : ltb r c = false <-> (c <= r)%Q.
Proof.
  unfold ltb. destruct (Qlt_le_dec r c) as [Hlt | Hge]; split; intros H; try done.
  exfalso. exact (Qlt_not_le _ _ Hlt H).
Qed.

(** *** Binary64 rounding *)

Lemma pow2_pos e : (0 < pow2 e)%Q.
Proof. by apply Qpower_0_lt. Qed.

Lemma pow2_plus a b : (pow2 (a + b) == pow2 a * pow2 b)%Q.
Proof. by apply Qpower_plus. Qed.

Lemma pow2_le a b : (a <= b)%Z -> (pow2 a <= pow2 b)%Q.
Proof. intros H. by apply Qpower_le_compat_l. Qed.

Lemma pow2_lt a b : (a < b)%Z -> (pow2 a < pow2 b)%Q.
Proof. intros H. by apply Qpower_lt_compat_l. Qed.

(** Rounding moves a number by at most half a unit in the last place. *)
Lemma roundHalfEven_near (m : Q) :
  (m - (1 # 2) <= inject_Z (roundHalfEven m) <= m + (1 # 2))%Q.
Proof.
  unfold roundHalfEven.
  pose proof (Qfloor_le m) as Hlo. pose proof (Qlt_floor m) as Hhi.
  rewrite inject_Z_plus in Hhi.
  assert (E1 : (inject_Z (Qfloor m + 1) == inject_Z (Qfloor m) + 1)%Q)
    by (rewrite inject_Z_plus; reflexivity).
  change (inject_Z 1) with 1%Q in Hhi.
  destruct (Qcompare_spec (m - inject_Z (Qfloor m)) (1 # 2)) as [H|H|H].
  - destruct (Z.even (Qfloor m)); [|rewrite E1]; lra.
  - lra.
  - rewrite E1. lra.
Qed.

Lemma roundHalfEven_nonneg (m : Q) : (0 <= m)%Q -> (0 <= roundHalfEven m)%Z.
Proof.
  intros H. unfold roundHalfEven.
  assert (0 <= Qfloor m)%Z.
  { change 0%Z with (Qfloor 0). by apply Qfloor_resp_le. }
  destruct (Qcompare _ _); [destruct (Z.even _)| |]; lia.
Qed.

Lemma binade_bounds (x : Q) (e : Z) :
  binade x = Some e -> (pow2 e <= x /\ x < pow2 (e + 1))%Q.
Proof.
  unfold binade. set (e0 := (Z.log2 (Qnum x) - Z.log2 (Z.pos (Qden x)))%Z).
  destruct (Qle_bool (pow2 e0) x && ltb x (pow2 (e0 + 1))) eqn:E1.
  - intros [= <-]. apply andb_true_iff in E1 as [H1 H2].
    split; [by apply Qle_bool_iff | by apply ltb_true].
  - destruct (Qle_bool (pow2 (e0 - 1)) x && ltb x (pow2 e0)) eqn:E2; [|done].
    intros [= <-]. apply andb_true_iff in E2 as [H1 H2].
    replace (e0 - 1 + 1)%Z with e0 by lia.
    split; [by apply Qle_bool_iff | by apply ltb_true].
Qed.

Lemma round64_near (x : Q) (e : Z) :
  binade x = Some e ->
  let ulp := pow2 (Z.max (e - 52) (-1074)) in
  (x - ulp * (1 # 2) <= round64 x <= x + ulp * (1 # 2))%Q.
Proof.
  intros He ulp. unfold round64. rewrite He. fold ulp.
  pose proof (pow2_pos (Z.max (e - 52) (-1074))) as Hpos. fold ulp in Hpos.
  pose proof (roundHalfEven_near (x / ulp)) as [Hlo Hhi].
  assert (E : (x / ulp * ulp == x)%Q) by (field; lra).
  set (m := (x / ulp)%Q) in *. set (K := inject_Z (roundHalfEven m)) in *.
  clearbody m K. split; nra.
Qed.

Lemma epsilon_value : (epsilon == 1 # 9007199254740992)%Q.
Proof. reflexivity. Qed.

Lemma inject_Z_pos (z : Z) : (0 < z)%Z -> (0 < inject_Z z)%Q.
Proof. intros H. change 0%Q with (inject_Z 0). by rewrite <- Zlt_Qlt. Qed.

Lemma Qdiv_le_cross (a b c d : Q) :
  (0 < b)%Q -> (0 < d)%Q -> (a * d <= c * b)%Q -> (a / b <= c / d)%Q.
Proof.
  intros Hb Hd H. apply Qle_shift_div_l; [done|].
  setoid_replace (a / b * d)%Q with (a * d / b)%Q using relation Qeq by (field; lra).
  by apply Qle_shift_div_r.
Qed.

Lemma Qdiv_lt_cross (a b c d : Q) :
  (0 < b)%Q -> (0 < d)%Q -> (a * d < c * b)%Q -> (a / b < c / d)%Q.
Proof.
  intros Hb Hd H. apply Qlt_shift_div_l; [done|].
  setoid_replace (a / b * d)%Q with (a * d / b)%Q using relation Qeq by (field; lra).
  by apply Qlt_shift_div_r.
Qed.

(** Every positive number has a binade: [round64] rounds all of them. *)
Lemma binade_total (x : Q) : (0 < x)%Q -> exists e, binade x = Some e.
Proof.
  intros Hx. destruct x as [p q]. unfold binade. simpl Qnum. simpl Qden.
  assert (Hp : (0 < p)%Z).
  { unfold Qlt in Hx. simpl in Hx. lia. }
  set (lp := Z.log2 p). set (lq := Z.log2 (Z.pos q)).
  destruct (Z.log2_spec p Hp) as [Hp1 Hp2]. fold lp in Hp1, Hp2.
  destruct (Z.log2_spec (Z.pos q) ltac:(lia)) as [Hq1 Hq2]. fold lq in Hq1, Hq2.
  assert (Hlp : (0 <= lp)%Z) by apply Z.log2_nonneg.
  assert (Hlq : (0 <= lq)%Z) by apply Z.log2_nonneg.
  assert (Epow : forall a b, (0 <= a)%Z -> (0 <= b)%Z ->
            (pow2 (a - b) == inject_Z (2 ^ a) / inject_Z (2 ^ b))%Q).
  { intros a b Ha Hb. unfold pow2. rewrite Qpower_minus by done.
    rewrite !Zpower_Qpower by done. reflexivity. }
  assert (Hq0 : (0 < inject_Z (Z.pos q))%Q) by by apply inject_Z_pos.
  assert (Ex : (p # q == inject_Z p / inject_Z (Z.pos q))%Q).
  { rewrite Qmake_Qdiv. reflexivity. }
  assert (Hlow : (pow2 (lp - lq - 1) <= p # q)%Q).
  { replace (lp - lq - 1)%Z with (lp - (lq + 1))%Z by lia.
    rewrite Epow by lia. rewrite Ex.
    assert (H2 : (0 < inject_Z (2 ^ (lq + 1)))%Q).
    { apply inject_Z_pos. apply Z.pow_pos_nonneg; lia. }
    apply Qdiv_le_cross; [done | done|].
    rewrite <- !inject_Z_mult, <- Zle_Qle.
    replace (Z.succ lq) with (lq + 1)%Z in Hq2 by lia. nia. }
  assert (Hup : (p # q < pow2 (lp - lq + 1))%Q).
  { replace (lp - lq + 1)%Z with (lp + 1 - lq)%Z by lia.
    rewrite Epow by lia. rewrite Ex.
    assert (H2 : (0 < inject_Z (2 ^ lq))%Q).
    { apply inject_Z_pos. apply Z.pow_pos_nonneg; lia. }
    apply Qdiv_lt_cross; [done | done|].
    rewrite <- !inject_Z_mult, <- Zlt_Qlt.
    replace (Z.succ lp) with (lp + 1)%Z in Hp2 by lia. nia. }
  destruct (Qlt_le_dec (p # q) (pow2 (lp - lq))) as [Hc|Hc].
  - exists (lp - lq - 1)%Z.
    assert (E1 : Qle_bool (pow2 (lp - lq)) (p # q) = false).
    { destruct (Qle_bool _ _) eqn:E; [|done].
      apply Qle_bool_iff in E. exfalso. by apply (Qlt_not_le _ _ Hc). }
    rewrite E1. simpl.
    assert (E2 : Qle_bool (pow2 (lp - lq - 1)) (p # q) = true) by by apply Qle_bool_iff.
    assert (E3 : ltb (p # q) (pow2 (lp - lq)) = true) by by apply ltb_true.
    by rewrite E2, E3.
  - exists (lp - lq)%Z.
    assert (E1 : Qle_bool (pow2 (lp - lq)) (p # q) = true) by by apply Qle_bool_iff.
    assert (E3 : ltb (p # q) (pow2 (lp - lq + 1)) = true) by by apply ltb_true.
    by rewrite E1, E3.
Qed.

Lemma pow2_lt_inv a b : (pow2 a < pow2 b)%Q -> (a < b)%Z.
Proof. intros H. by apply (Qpower_lt_compat_l_inv 2). Qed.

(** The largest double below one is [1 - 2^-53]. *)
Lemma double_below_one (r : Q) :
  isDouble r = true -> (r < 1)%Q -> (r <= 1 - epsilon)%Q.
Proof.
  intros Hd H1. rewrite epsilon_value. unfold isDouble in Hd.
  destruct (binade r) as [e|] eqn:He.
  - apply andb_true_iff in Hd as [_ Hd]. apply Qeq_bool_iff in Hd.
    destruct (binade_bounds r e He) as [Hlo Hhi].
    assert (He0 : (e < 0)%Z).
    { apply pow2_lt_inv. change (pow2 0) with 1%Q. lra. }
    destruct (Z.eq_dec e (-1)%Z) as [->|Hne].
    + unfold round64 in Hd. rewrite He in Hd.
      change (pow2 (Z.max (-1 - 52) (-1074))) with (1 # 9007199254740992)%Q in Hd.
      set (K := roundHalfEven (r / (1 # 9007199254740992))) in Hd.
      assert (HK : (K < 9007199254740992)%Z).
      { rewrite Zlt_Qlt. change (inject_Z 9007199254740992) with (9007199254740992 # 1)%Q. lra. }
      assert (HK' : (inject_Z K <= inject_Z 9007199254740991)%Q).
      { rewrite <- Zle_Qle. lia. }
      change (inject_Z 9007199254740991) with (9007199254740991 # 1)%Q in HK'.
      lra.
    + assert (Hle : (pow2 (e + 1) <= pow2 (-1))%Q) by (apply pow2_le; lia).
      change (pow2 (-1)) with (1 # 2)%Q in Hle. lra.
  - apply Qeq_bool_iff in Hd. lra.
Qed.

Lemma Qfloor_bounds (y : Q) (k : Z) :
  (0 <= y)%Q -> (y < inject_Z k)%Q -> (0 <= Qfloor y < k)%Z.
Proof.
  intros H0 H1. split.
  - change 0%Z with (Qfloor 0). by apply Qfloor_resp_le.
  - rewrite Zlt_Qlt. eapply Qle_lt_trans; [apply Qfloor_le | done].
Qed.

(** The rounding error of a product below [k] is below [k * 2^-53]. *)
Lemma round64_error (x : Q) (k : Q) :
  (0 <= x)%Q -> (x < k)%Q -> (1 <= k)%Q ->
  (0 <= round64 x)%Q /\
  (x - k * epsilon < round64 x)%Q /\ (round64 x < x + k * epsilon)%Q.
Proof.
  intros H0 Hk H1. rewrite epsilon_value.
  destruct (binade x) as [e|] eqn:He.
  - pose proof (round64_near x e He) as Hnear. cbv zeta in Hnear.
    destruct (binade_bounds x e He) as [Hlo Hhi].
    assert (Hnn : (0 <= round64 x)%Q).
    { unfold round64. rewrite He.
      apply Qmult_le_0_compat; [|apply Qlt_le_weak, pow2_pos].
      change 0%Q with (inject_Z 0). rewrite <- Zle_Qle.
      apply roundHalfEven_nonneg.
      apply Qle_shift_div_l; [apply pow2_pos|]. lra. }
    assert (Hulp : (pow2 (Z.max (e - 52) (-1074)) * (1 # 2) < k * (1 # 9007199254740992))%Q).
    { destruct (Z.max_spec (e - 52) (-1074)) as [[Hc ->]|[Hc ->]].
      - change (pow2 (-1074) * (1 # 2))%Q with (pow2 (-1075)).
        assert (Hle : (pow2 (-1075) < pow2 (-53))%Q) by by apply pow2_lt.
        change (pow2 (-53)) with (1 # 9007199254740992)%Q in Hle. lra.
      - replace (e - 52)%Z with (e + -52)%Z by lia. rewrite pow2_plus.
        change (pow2 (-52)) with (1 # 4503599627370496)%Q.
        pose proof (pow2_pos e). lra. }
    lra.
  - unfold round64. rewrite He. lra.
Qed.

(** The rounded product of a draw with a positive integer stays below the
    integer: the index that its floor gives is within the array. *)
Lemma times_range (r : Q) (k : Z) :
  unitDraw r -> (0 < k)%Z -> (0 <= Qfloor (times r k) < k)%Z.
Proof.
  intros [H0 H1] Hk.
  assert (Hk1 : (1 <= inject_Z k)%Q).
  { change 1%Q with (inject_Z 1). rewrite <- Zle_Qle. lia. }
  apply Qfloor_bounds; unfold times;
    destruct (isDouble r && ltb r 1 && (0 <=? k)%Z && (k <=? 2 ^ 53)%Z) eqn:G.
  - apply round64_error with (k := inject_Z k); nra.
  - nra.
  - apply andb_true_iff in G as [G _]. apply andb_true_iff in G as [G _].
    apply andb_true_iff in G as [Hd _].
    pose proof (double_below_one r Hd H1) as Hr. rewrite epsilon_value in Hr.
    assert (Hx0 : (0 <= r * inject_Z k)%Q) by nra.
    destruct (binade (r * inject_Z k)) as [e|] eqn:He.
    + pose proof (round64_near _ e He) as [_ Hnear]. cbv zeta in Hnear.
      destruct (binade_bounds _ e He) as [Hlo Hhi].
      eapply Qle_lt_trans; [exact Hnear|].
      destruct (Z.max_spec (e - 52) (-1074)) as [[Hc ->]|[Hc ->]].
      * assert (Hle : (pow2 (e + 1) <= pow2 (-1))%Q) by (apply pow2_le; lia).
        change (pow2 (-1)) with (1 # 2)%Q in Hle.
        change (pow2 (-1074) * (1 # 2))%Q with (pow2 (-1075)).
        assert (Hle' : (pow2 (-1075) <= pow2 (-1))%Q) by by apply pow2_le.
        change (pow2 (-1)) with (1 # 2)%Q in Hle'. lra.
      * replace (e - 52)%Z with (e + -52)%Z by lia. rewrite pow2_plus.
        change (pow2 (-52)) with (1 # 4503599627370496)%Q.
        set (x := (r * inject_Z k)%Q) in *. set (c := pow2 e) in *.
        assert (Hb : (x <= (1 - (1 # 9007199254740992)) * inject_Z k)%Q).
        { unfold x. apply Qmult_le_r; [lra | done]. }
        lra.
    + unfold round64. rewrite He. nra.
  - nra.
Qed.

Lemma floorTimes_range (r : Q) (n : nat) :
  unitDraw r -> (0 < n)%nat -> (0 <= floorTimes r n < Z.of_nat n)%Z.
Proof. intros Hr Hn. apply times_range; [done | lia]. Qed.

Lemma times_error (r : Q) (k : Z) :
  unitDraw r -> (0 < k)%Z ->
  (r * inject_Z k - inject_Z k * epsilon < times r k)%Q /\
  (times r k < r * inject_Z k + inject_Z k * epsilon)%Q.
Proof.
  intros [H0 H1] Hk.
  assert (Hk1 : (1 <= inject_Z k)%Q).
  { change 1%Q with (inject_Z 1). rewrite <- Zle_Qle. lia. }
  unfold times.
  destruct (isDouble r && ltb r 1 && (0 <=? k)%Z && (k <=? 2 ^ 53)%Z).
  - apply round64_error; nra.
  - rewrite epsilon_value. lra.
Qed.

(** [Math.floor(r * n)] is [i] only when [r] lies less than [2^-53] outside
    the [i]-th of the [n] consecutive intervals of length [1/n], and it is
    [i] when [r] lies in that interval at least [2^-53] away from its ends. *)
Lemma floorTimes_slot (r : Q) (n : nat) (i : Z) :
  unitDraw r -> (0 < n)%nat ->
  let m := inject_Z (Z.of_nat n) in
  (floorTimes r n = i ->
   (inject_Z i / m - epsilon < r)%Q /\ (r < (inject_Z i + 1) / m + epsilon)%Q) /\
  ((inject_Z i / m + epsilon <= r)%Q /\ (r < (inject_Z i + 1) / m - epsilon)%Q ->
   floorTimes r n = i).
Proof.
  intros Hr Hn m.
  assert (Hm : (0 < m)%Q) by (apply inject_Z_pos; lia).
  destruct (times_error r (Z.of_nat n) Hr ltac:(lia)) as [Hlo Hhi]. fold m in Hlo, Hhi.
  assert (Ediv : forall a, (a / m * m == a)%Q) by (intros a; field; lra).
  unfold floorTimes. set (y := times r (Z.of_nat n)) in *. clearbody y.
  pose proof (Ediv (inject_Z i)) as E1. pose proof (Ediv (inject_Z i + 1)%Q) as E2.
  split.
  - intros <-. pose proof (Qfloor_le y) as Hf1. pose proof (Qlt_floor y) as Hf2.
    rewrite inject_Z_plus in Hf2. change (inject_Z 1) with 1%Q in Hf2.
    pose proof (Ediv (inject_Z (Qfloor y))) as E3. pose proof (Ediv (inject_Z (Qfloor y) + 1)%Q) as E4.
    split; apply (Qmult_lt_r _ _ m Hm); lra.
  - intros [H1 H2].
    apply (Qmult_le_r _ _ m Hm) in H1. apply (Qmult_lt_r _ _ m Hm) in H2.
    assert (Hy1 : (inject_Z i <= y)%Q) by lra.
    assert (Hy2 : (y < inject_Z (i + 1))%Q).
    { rewrite inject_Z_plus. change (inject_Z 1) with 1%Q. lra. }
    assert (G1 : (i <= Qfloor y)%Z).
    { rewrite <- (Qfloor_Z i). by apply Qfloor_resp_le. }
    assert (G2 : (Qfloor y < i + 1)%Z).
    { rewrite Zlt_Qlt. eapply Qle_lt_trans; [apply Qfloor_le | done]. }
    lia.
Qed.

(** On a double of [0, 1) and a length that a double holds, the index is
    the floor of the rounded product. *)
Lemma floorTimes_double (r : Q) (n : nat) :
  unitDraw r -> isDouble r = true -> (Z.of_nat n <= 2 ^ 53)%Z ->
  floorTimes r n = Qfloor (round64 (r * inject_Z (Z.of_nat n))).
Proof.
  intros [_ H1] Hd Hle. unfold floorTimes, times. rewrite Hd.
  apply ltb_true in H1. rewrite H1.
  destruct (Z.leb_spec 0 (Z.of_nat n)); [|lia].
  destruct (Z.leb_spec (Z.of_nat n) (2 ^ 53)); [|lia]. reflexivity.
Qed.

(** No double lies between [4/5] and the double that [0.8] denotes. *)
Lemma literal_08 (r : Q) :
  isDouble r = true -> ((r < 4 # 5)%Q <-> (r < double08)%Q).
Proof.
  intros Hd. unfold double08. split; [lra|]. intros Hlt.
  destruct (Qlt_le_dec r (4 # 5)) as [|Hge]; [done|]. exfalso.
  unfold isDouble in Hd. destruct (binade r) as [e|] eqn:He.
  - apply andb_true_iff in Hd as [_ Hd]. apply Qeq_bool_iff in Hd.
    destruct (binade_bounds r e He) as [Hlo Hhi].
    assert (He0 : (e < 0)%Z).
    { apply pow2_lt_inv. change (pow2 0) with 1%Q. lra. }
    assert (He1 : (-1 < e + 1)%Z).
    { apply pow2_lt_inv. change (pow2 (-1)) with (1 # 2)%Q. lra. }
    assert (e = -1)%Z as -> by lia.
    unfold round64 in Hd. rewrite He in Hd.
    change (pow2 (Z.max (-1 - 52) (-1074))) with (1 # 9007199254740992)%Q in Hd.
    set (K := roundHalfEven (r / (1 # 9007199254740992))) in Hd.
    assert (HK1 : (K < 7205759403792794)%Z).
    { rewrite Zlt_Qlt. change (inject_Z 7205759403792794) with (7205759403792794 # 1)%Q. lra. }
    assert (HK2 : (7205759403792793 < K)%Z).
    { rewrite Zlt_Qlt. change (inject_Z 7205759403792793) with (7205759403792793 # 1)%Q. lra. }
    lia.
  - apply Qeq_bool_iff in Hd. lra.
Qed.

(** The doubles that the literals [0.4], [0.6] and [0.8] denote. *)
Example double06_is_the_literal :
  (round64 (2 # 5) == double04)%Q /\
  (round64 (3 # 5) == double06)%Q /\ (round64 (4 # 5) == double08)%Q /\
  isDouble double06 = true /\ (double06 < 3 # 5)%Q.
Proof. by vm_compute. Qed.

(** Two products that round up to an integer: [0.6 * 5] is [3] and
    [0.6666666666666666 * 3] is [2], where the exact products lie below. *)
Example product_rounds_up :
  floorTimes double06 5 = 3%Z /\ Qfloor (double06 * 5) = 2%Z /\
  floorTimes (round64 (2 # 3)) 3 = 2%Z /\ Qfloor (round64 (2 # 3) * 3) = 1%Z.
Proof. by vm_compute. Qed.

Lemma arrayAt_in_range {A} (arr : list A) (i : Z) :
  (0 <= i < Z.of_nat (length arr))%Z -> exists x, arrayAt arr i = Some x /\ In x arr.
Proof.
  intros Hi. unfold arrayAt.
  destruct (Z.ltb_spec i 0); [lia|].
  destruct (lookup_lt_is_Some_2 arr (Z.to_nat i)) as [x Hx]; [lia|].
  exists x. split; [done|]. apply list_elem_of_In. by eapply list_elem_of_lookup_2.
Qed.

Lemma bind_inv {A B} (c : Eff A) (k : A -> Eff B) (w : World) (b : B) (w' : World) :
  bind c k w = Some (b, w') ->
  exists a w1, c w = Some (a, w1) /\ k a w1 = Some (b, w').
Proof.
  unfold bind. destruct (c w) as [[a w1]|]; [|done]. intros H. by exists a, w1.
Qed.

Lemma arrayAt_lookup {A} (arr : list A) (i : Z) (x : A) :
  arrayAt arr i = Some x -> arr !! Z.to_nat i = Some x /\ (0 <= i)%Z.
Proof.
  unfold arrayAt. destruct (Z.ltb_spec i 0); [done|]. by intros H'.
Qed.

Lemma findIndexFrom_found {A} (pred : A -> bool) (arr : list A) (i : Z) :
  (exists x, In x arr /\ pred x = true) ->
  exists (j : nat) (y : A),
    findIndexFrom pred arr i = (i + Z.of_nat j)%Z /\
    arr !! j = Some y /\ pred y = true.
Proof.
  revert i. induction arr as [|a rest IH]; intros i [x [Hin Hx]]; [done|].
  simpl. destruct (pred a) eqn:Ha.
  - exists 0%nat, a. split; [lia|]. done.
  - destruct Hin as [->|Hin]; [congruence|].
    destruct (IH (i + 1)%Z) as (j & y & Hj & Hy & Hpy); [by exists x|].
    exists (S j), y. split; [lia|]. done.
Qed.

Lemma findIndex_found {A} (pred : A -> bool) (arr : list A) :
  (exists x, In x arr /\ pred x = true) ->
  exists y, arrayAt arr (findIndex pred arr) = Some y /\ pred y = true.
Proof.
  intros H. destruct (findIndexFrom_found pred arr 0 H) as (j & y & Hj & Hy & Hp).
  exists y. split; [|done]. unfold findIndex, arrayAt. rewrite Hj.
  destruct (Z.ltb_spec (0 + Z.of_nat j) 0); [lia|].
  by replace (Z.to_nat (0 + Z.of_nat j)) with j by lia.
Qed.

Lemma NoDup_ids_same (ps : list Player) (p q : Player) :
  List.NoDup (map id ps) -> In p ps -> In q ps -> id p = id q -> p = q.
Proof.
  induction ps as [|a rest IH]; [done|]. simpl.
  intros Hnd Hp Hq Hid. inversion Hnd as [|x l Hnotin Hnd']; subst.
  destruct Hp as [-> | Hp], Hq as [-> | Hq]; try done.
  - exfalso. apply Hnotin. rewrite Hid. by apply in_map.
  - exfalso. apply Hnotin. rewrite <- Hid. by apply in_map.
  - by apply IH.
Qed.

(** ** The embedding at work *)

(** Three hits in a row on "ai-1" in a new game of three health points:
    its health goes 3, 2, 1, 0 and it stops being alive on the third hit. *)
Example three_hits_on_one_target :
  forall hits,
    In hits [0; 1; 2; 3]%nat ->
    exists s w,
      (let* start := GameEngine.initializeGame GAME_CONFIG in
       dispatchAll start (SELECT_TARGET "ai-1" :: replicate hits (SHOT_RESULT true)))
        exampleWorld = Some (s, w) /\
      (fun p => (health p, isAlive p)) <$> players s !! 1%nat =
        Some ((3 - Z.of_nat hits)%Z, (hits <? 3)%nat).
Proof.
  intros hits [<- | [<- | [<- | [<- | []]]]];
    do 2 eexists; (split; [vm_compute; reflexivity | reflexivity]).
Qed.

(** The human fires a blank at "ai-1"; when "ai-1" is armed next and its
    first draw is below 4/5, it targets the human, after two draws. *)
Example blank_then_retaliation :
  exists s w w',
    (let* start := GameEngine.initializeGame GAME_CONFIG in
     dispatchAll start
       [SET_SPINNER_RESULT 0 "player-0"; SELECT_TARGET "ai-1";
        SHOT_RESULT false; NEXT_TURN; SET_SPINNER_RESULT 0 "ai-1"])
      exampleWorld = Some (s, w) /\
    grudgesOf w (aiMemories s) "ai-1" = ["player-0"] /\
    AIEngine.decideTarget (examplePlayer "ai-1" PlayerType.AI 3) (players s)
                          (aiMemories s) GAME_CONFIG w = Some ("player-0", w') /\
    drawn w' = 2%nat.
Proof.
  do 3 eexists. split; [vm_compute; reflexivity|].
  split; [reflexivity|]. split; [vm_compute; reflexivity | reflexivity].
Qed.

(** A draw equal to the literal [0.6] on a new game of five: the product
    [0.6 * 5] rounds to 3, and the spin arms the actor at index 3, "ai-3".
    The exact product lies below 3. *)
Example spin_at_the_literal_06 :
  exists s w result w',
    GameEngine.initializeGame GAME_CONFIG exampleWorld = Some (s, w) /\
    GameEngine.spinRevolver s (withDraw double06 w) = Some (result, w') /\
    GameEngine.shooterId result = "ai-3" /\
    Qfloor (double06 * 5) = 2%Z.
Proof.
  do 4 eexists. split; [reflexivity|]. split; [vm_compute; reflexivity|].
  split; reflexivity.
Qed.

(** The same draw in the human block of the decision: [0.6 < 0.6] is
    false, and the decision goes on to the weakest peer. One double below,
    the human is the target. *)
Example human_spared_at_the_literal_06 :
  (exists w',
     AIEngine.decideTarget (examplePlayer "ai-1" PlayerType.AI 3) examplePlayers
       ∅ GAME_CONFIG (withDraw double06 exampleWorld) = Some ("ai-2", w')) /\
  (exists w',
     AIEngine.decideTarget (examplePlayer "ai-1" PlayerType.AI 3) examplePlayers
       ∅ GAME_CONFIG (withDraw (double06 - epsilon) exampleWorld)
       = Some ("player-0", w')).
Proof. split; eexists; vm_compute; reflexivity. Qed.

Lemma exampleWorld_valid : validDraws exampleWorld.
Proof. intros n. split; simpl; [discriminate | reflexivity]. Qed.

(** ** Game initialisation (C10) *)

(** C10. For every configuration, [initializeGame] returns a state with
    exactly five actors whatever [playerCount] says (the field is not
    read): the human "player-0" at position 0 and the autonomous actors
    "ai-1" to "ai-4" at positions 1 to 4, each alive with health
    [startingHealth], in phase Setup, with no armed actor, no selected
    target, an empty turn history and an empty grudge memory. *)
Theorem initializeGame_five_actors (config : GameConfig) (w : World) :
  exists s w',
    GameEngine.initializeGame config w = Some (s, w') /\
    length (players s) = 5%nat /\
    map id (players s) = ["player-0"; "ai-1"; "ai-2"; "ai-3"; "ai-4"] /\
    map type (players s) =
      [PlayerType.HUMAN; PlayerType.AI; PlayerType.AI; PlayerType.AI;
       PlayerType.AI] /\
    map position (players s) = [0; 1; 2; 3; 4]%Z /\
    map isAlive (players s) = [true; true; true; true; true] /\
    map health (players s) = replicate 5 (startingHealth config) /\
    phase s = GamePhase.SETUP /\
    currentShooter s = None /\
    selectedTarget s = None /\
    turnHistory s = [] /\
    aiMemories s = ∅ /\
    heap w' = heap w /\
    forall n, GameEngine.initializeGame (withPlayerCount n config) w = Some (s, w').
Proof.
  unfold GameEngine.initializeGame, bind, dateNow, ret. simpl.
  do 2 eexists. split; [reflexivity|]. simpl. repeat split.
Qed.

(** ** Win detection (C7) *)

Lemma filter_singleton_unique (ps : list Player) (p : Player) :
  List.filter isAlive ps = [p] ->
  In p ps /\ isAlive p = true /\
  forall q, In q ps -> isAlive q = true -> q = p.
Proof.
  intros E.
  assert (Hp : In p (List.filter isAlive ps)) by (rewrite E; by left).
  apply filter_In in Hp as [Hin Hal]. repeat split; try done.
  intros q Hq Hqa.
  assert (Hq' : In q (List.filter isAlive ps)) by (apply filter_In; done).
  rewrite E in Hq'. destruct Hq' as [<- | []]. done.
Qed.

(** C7. Win detection: with exactly one alive actor the game is over and
    that actor, the only alive one of the list, is the winner; with no alive
    actor the game is over without a winner; with two or more alive actors
    the game is not over. *)
Theorem checkGameOver_cases (ps : list Player) :
  (length (List.filter isAlive ps) = 1%nat ->
     exists p, GameEngine.checkGameOver ps =
                 {| GameEngine.isOver := true; GameEngine.winner := Some p |} /\
               In p ps /\ isAlive p = true /\
               forall q, In q ps -> isAlive q = true -> q = p) /\
  (length (List.filter isAlive ps) = 0%nat ->
     GameEngine.checkGameOver ps =
       {| GameEngine.isOver := true; GameEngine.winner := None |}) /\
  ((2 <= length (List.filter isAlive ps))%nat ->
     GameEngine.checkGameOver ps =
       {| GameEngine.isOver := false; GameEngine.winner := None |}).
Proof.
  unfold GameEngine.checkGameOver.
  destruct (List.filter isAlive ps) as [|p [|q rest]] eqn:E; simpl.
  - repeat split; intros; (done || lia).
  - repeat split; intros; try lia.
    exists p. split; [done|]. by apply filter_singleton_unique.
  - repeat split; intros; (done || lia).
Qed.

Lemma checkGameOver_cases_witness :
  exists p,
    GameEngine.checkGameOver
      [examplePlayer "player-0" PlayerType.HUMAN 0;
       examplePlayer "ai-1" PlayerType.AI 2] =
      {| GameEngine.isOver := true; GameEngine.winner := Some p |} /\
    id p = "ai-1".
Proof.
  destruct (checkGameOver_cases
              [examplePlayer "player-0" PlayerType.HUMAN 0;
               examplePlayer "ai-1" PlayerType.AI 2]) as [H1 _].
  destruct (H1 eq_refl) as [p [Hp [Hin _]]].
  exists p. split; [exact Hp|].
  vm_compute in Hp. injection Hp as <-. reflexivity.
Defined.

(** ** Commands and phases (C1) *)

Lemma set_phase_fixpoint (v : GamePhase.t) (s : GameState) :
  set_phase v s = s <-> phase s = v.
Proof.
  split.
  - intros E. apply (f_equal phase) in E. by symmetry.
  - intros <-. by destruct s.
Qed.

Lemma set_selectedTarget_fixpoint (v : option string) (s : GameState) :
  set_selectedTarget v s = s <-> selectedTarget s = v.
Proof.
  split.
  - intros E. apply (f_equal selectedTarget) in E. by symmetry.
  - intros <-. by destruct s.
Qed.

(** C1 as the specification states it (a command outside its phase is
    rejected with [InvalidPhase] and the state is unchanged) does not hold:
    a shoot command issued in phase Setup, on the state of a new game, is
    accepted. The reducer returns a state, not an error, and that state is
    in phase Shooting, so it differs from the state before the command. *)
Lemma shoot_in_setup_is_accepted :
  exists s w s' w',
    GameEngine.initializeGame GAME_CONFIG exampleWorld = Some (s, w) /\
    phase s = GamePhase.SETUP /\
    gameReducer s SHOOT w = Some (s', w') /\
    phase s' = GamePhase.SHOOTING /\
    s' <> s.
Proof.
  do 4 eexists. split; [reflexivity|]. split; [reflexivity|].
  split; [reflexivity|]. split; [reflexivity|].
  intros E. apply (f_equal phase) in E. discriminate E.
Qed.

(** C1, as the code has it. The reducer checks no phase and has no error
    result: in every state, whatever its phase, spin, select-target and
    shoot return a state and leave the world as it is. Spin sets the phase to
    Spinning, select-target sets the selected target to its payload, shoot
    sets the phase to Shooting, and every other field is kept; the state
    is the one before the command only when the field already had that
    value. *)
Theorem commands_accepted_in_every_phase (s : GameState) (w : World) :
  (exists s', gameReducer s SPIN_REVOLVER w = Some (s', w) /\
     phase s' = GamePhase.SPINNING /\
     sameExceptPhase s s' /\
     (s' = s <-> phase s = GamePhase.SPINNING)) /\
  (exists s', gameReducer s SHOOT w = Some (s', w) /\
     phase s' = GamePhase.SHOOTING /\
     sameExceptPhase s s' /\
     (s' = s <-> phase s = GamePhase.SHOOTING)) /\
  (forall t,
     exists s', gameReducer s (SELECT_TARGET t) w = Some (s', w) /\
       selectedTarget s' = Some t /\
       sameExceptTarget s s' /\
       (s' = s <-> selectedTarget s = Some t)).
Proof.
  split; [|split].
  - eexists. split; [reflexivity|]. split; [reflexivity|].
    split; [by repeat split|]. apply set_phase_fixpoint.
  - eexists. split; [reflexivity|]. split; [reflexivity|].
    split; [by repeat split|]. apply set_phase_fixpoint.
  - intros t. eexists. split; [reflexivity|]. split; [reflexivity|].
    split; [by repeat split|]. apply set_selectedTarget_fixpoint.
Qed.

(** ** Shot resolution (C2) *)

Lemma attemptShot_run (w : World) :
  GameEngine.attemptShot w =
    Some (gtb (random w (drawn w)) (1 # 2),
          {| heap := heap w; random := random w; drawn := S (drawn w);
             clock := clock w; ticks := ticks w |}).
Proof. reflexivity. Qed.

Lemma blankWhen_iff (w : World) (r : Q) :
  blankWhen w r = true <-> (r <= 1 # 2)%Q.
Proof.
  unfold blankWhen. rewrite attemptShot_run. simpl.
  rewrite Nat.eqb_refl, negb_true_iff. unfold gtb. apply ltb_false.
Qed.

(** C2 as the specification states it (the blank draws have the measure
    [blankProbability]) does not hold: with [blankProbability] set to 1/4
    the draws 0 and 1/2 both give a blank, so the blank draws are not a
    region of measure 1/4. *)
Lemma blank_region_ignores_config :
  blankWhen exampleWorld 0 = true /\
  blankWhen exampleWorld (1 # 2) = true /\
  ~ blankRegionOf (blankWhen exampleWorld) (blankProbability quarterBlankConfig).
Proof.
  split; [reflexivity|]. split; [reflexivity|].
  intros (a & b & Ha & Hab & Hb & Hlen & Hr).
  destruct (Hr 0%Q) as [_ H0]; [split; [apply Qle_refl | reflexivity]|].
  destruct (Hr (1 # 2)%Q) as [_ H1]; [split; [discriminate | reflexivity]|].
  specialize (H0 eq_refl). specialize (H1 eq_refl).
  simpl in Hlen. lra.
Qed.

(** C2, as the code has it. Shot resolution reads exactly one draw and
    nothing else of the world, and takes no configuration: the shot is a hit
    exactly when the draw is above 1/2, so the blank draws are the interval
    from 0 to 1/2, of measure 1/2, whatever [blankProbability] is. That
    measure is the [blankProbability] of the shipped [GAME_CONFIG]. *)
Theorem attemptShot_fixed_half (w : World) :
  (exists isHit w',
     GameEngine.attemptShot w = Some (isHit, w') /\
     drawn w' = S (drawn w) /\
     heap w' = heap w /\ random w' = random w /\
     clock w' = clock w /\ ticks w' = ticks w /\
     (isHit = true <-> (1 # 2 < random w (drawn w))%Q)) /\
  (forall r, blankWhen w r = true <-> (r <= 1 # 2)%Q) /\
  blankRegionOf (blankWhen w) (1 # 2) /\
  (blankProbability GAME_CONFIG == 1 # 2)%Q.
Proof.
  split; [|split; [|split]].
  - do 2 eexists. split; [apply attemptShot_run|]. simpl.
    repeat (split; [reflexivity|]). unfold gtb. apply ltb_true.
  - apply blankWhen_iff.
  - exists 0%Q, (1 # 2)%Q.
    split; [discriminate|]. split; [discriminate|]. split; [discriminate|].
    split; [reflexivity|].
    intros r [Hr0 Hr1]. split.
    + intros [_ Hlt]. apply blankWhen_iff. by apply Qlt_le_weak.
    + intros Hb. split; [done|]. by apply blankWhen_iff in Hb.
  - reflexivity.
Qed.

(** ** The opponent policy always finds a target (C8) *)

Lemma mathRandom_run (w : World) :
  mathRandom w = Some (random w (drawn w), afterDraw w).
Proof. reflexivity. Qed.

Lemma validDraws_afterDraw (w : World) : validDraws w -> validDraws (afterDraw w).
Proof. intros H n. apply H. Qed.

Lemma onlyDraws_refl (w : World) : onlyDraws w w.
Proof. by repeat split. Qed.

Lemma onlyDraws_afterDraw (w w' : World) :
  onlyDraws (afterDraw w) w' -> onlyDraws w w'.
Proof.
  intros (Hh & Hr & Hc & Ht & Hd). simpl in *. repeat split; try done. lia.
Qed.

Lemma onlyDraws_valid (w w' : World) :
  onlyDraws w w' -> validDraws w -> validDraws w'.
Proof. intros (_ & Hr & _) Hv n. rewrite Hr. apply Hv. Qed.

(** [arr[Math.floor(Math.random() * arr.length)].id] on a non-empty array. *)
Lemma randomPick_total (arr : list Player) (w : World) :
  validDraws w -> arr <> [] ->
  exists p,
    (let* r := mathRandom in
     match arrayAt arr (floorTimes r (length arr)) with
     | Some p => ret (id p)
     | None => throw
     end) w = Some (id p, afterDraw w) /\ In p arr.
Proof.
  intros Hv Hne. unfold bind. rewrite mathRandom_run.
  destruct (arrayAt_in_range arr (floorTimes (random w (drawn w)) (length arr)))
    as [p [Hp Hin]].
  { apply floorTimes_range; [apply Hv|]. destruct arr; [done | simpl; lia]. }
  exists p. by rewrite Hp.
Qed.

Lemma insertByHealth_In (p x : Player) (sorted : list Player) :
  In x (insertByHealth p sorted) <-> x = p \/ In x sorted.
Proof.
  induction sorted as [|q rest IH]; simpl.
  - intuition.
  - destruct (health p <=? health q)%Z; simpl; [intuition|].
    rewrite IH. intuition.
Qed.

Lemma sortByHealth_In (x : Player) (arr : list Player) :
  In x (sortByHealth arr) <-> In x arr.
Proof.
  induction arr as [|p rest IH]; simpl; [done|].
  rewrite insertByHealth_In, IH. intuition.
Qed.

Lemma sortByHealth_head (arr : list Player) :
  arr <> [] -> exists p, sortByHealth arr !! 0%nat = Some p /\ In p arr.
Proof.
  intros Hne. destruct (sortByHealth arr) as [|p rest] eqn:E.
  - destruct arr as [|q arr']; [done|]. exfalso.
    assert (Hq : In q (sortByHealth (q :: arr'))) by (apply sortByHealth_In; by left).
    by rewrite E in Hq.
  - exists p. split; [done|]. apply sortByHealth_In. rewrite E. by left.
Qed.

Lemma length_pos_nonempty {A} (l : list A) : (0 <? length l)%nat = true <-> l <> [].
Proof.
  destruct l; simpl; split; intros H; try done.
Qed.

Lemma afterHuman_total (alivePlayers : list Player) (w : World) :
  validDraws w -> alivePlayers <> [] ->
  exists p w',
    AIEngine.afterHuman alivePlayers w = Some (id p, w') /\ In p alivePlayers /\
    onlyDraws w w'.
Proof.
  intros Hv Hne. unfold AIEngine.afterHuman.
  set (aiTargets := List.filter _ alivePlayers).
  destruct (0 <? length aiTargets)%nat eqn:E.
  - apply length_pos_nonempty in E.
    destruct (sortByHealth_head aiTargets E) as [p [Hp Hin]].
    exists p, w. rewrite Hp. split; [done|].
    apply filter_In in Hin. split; [by destruct Hin | apply onlyDraws_refl].
  - destruct (randomPick_total alivePlayers w Hv Hne) as [p [Hp Hin]].
    exists p, (afterDraw w). split; [done|]. split; [done|].
    apply onlyDraws_afterDraw, onlyDraws_refl.
Qed.

Lemma afterRevenge_total (alivePlayers : list Player) (w : World) :
  validDraws w -> alivePlayers <> [] ->
  exists p w',
    AIEngine.afterRevenge alivePlayers w = Some (id p, w') /\ In p alivePlayers /\
    onlyDraws w w'.
Proof.
  intros Hv Hne. unfold AIEngine.afterRevenge.
  destruct (List.find _ alivePlayers) as [human|] eqn:E.
  - unfold bind. rewrite mathRandom_run.
    destruct (ltb (random w (drawn w)) double06).
    + exists human, (afterDraw w). split; [done|].
      apply find_some in E. split; [by destruct E|].
      apply onlyDraws_afterDraw, onlyDraws_refl.
    + destruct (afterHuman_total alivePlayers (afterDraw w)) as (p & w' & Hp & Hin & Hd);
        [by apply validDraws_afterDraw | done |].
      exists p, w'. split; [done|]. split; [done|]. by apply onlyDraws_afterDraw.
  - by apply afterHuman_total.
Qed.

Lemma decideTarget_total (aiPlayer : Player) (allPlayers : list Player)
    (aiMemories : gmap string loc) (config : GameConfig) (w : World) :
  validDraws w ->
  closedAt w aiMemories (id aiPlayer) ->
  (exists other, In other allPlayers /\ isAlive other = true /\
                 id other <> id aiPlayer) ->
  exists p w',
    AIEngine.decideTarget aiPlayer allPlayers aiMemories config w = Some (id p, w') /\
    (In p allPlayers /\ isAlive p = true /\ id p <> id aiPlayer) /\
    onlyDraws w w'.
Proof.
  intros Hv Hclosed [other (Hin & Halive & Hid)].
  unfold AIEngine.decideTarget.
  set (alivePlayers := List.filter _ allPlayers).
  assert (Hsub : forall p, In p alivePlayers ->
            In p allPlayers /\ isAlive p = true /\ id p <> id aiPlayer).
  { intros p Hp. apply filter_In in Hp as [Hp1 Hp2].
    apply andb_true_iff in Hp2 as [Ha Hn].
    apply negb_true_iff, String.eqb_neq in Hn. done. }
  assert (Hne : alivePlayers <> []).
  { assert (Ho : In other alivePlayers).
    { apply filter_In. split; [done|]. rewrite Halive. simpl.
      apply negb_true_iff, String.eqb_neq. done. }
    intros E. by rewrite E in Ho. }
  assert (Hrest : forall w1, validDraws w1 -> onlyDraws w w1 ->
            exists p w',
              AIEngine.afterRevenge alivePlayers w1 = Some (id p, w') /\
              (In p allPlayers /\ isAlive p = true /\ id p <> id aiPlayer) /\
              onlyDraws w w').
  { intros w1 Hv1 Hd1.
    destruct (afterRevenge_total alivePlayers w1 Hv1 Hne)
      as (p & w' & Hp & Hpin & Hd).
    exists p, w'. split; [done|]. split; [by apply Hsub|].
    destruct Hd1 as (? & ? & ? & ? & ?), Hd as (? & ? & ? & ? & ?).
    repeat split; try congruence. lia. }
  assert (Hmem : forall memory : option AIMemory,
            exists p w',
              match memory with
              | Some memory =>
                  if (0 <? length (grudges memory))%nat then
                    if (0 <? length (List.filter (fun p => includes (grudges memory) (id p))
                                                 alivePlayers))%nat then
                      let* r := mathRandom in
                      if ltb r (4 # 5) then
                        let* r2 := mathRandom in
                        match arrayAt (List.filter (fun p => includes (grudges memory) (id p))
                                                   alivePlayers)
                                (floorTimes r2
                                   (length (List.filter
                                      (fun p => includes (grudges memory) (id p))
                                      alivePlayers))) with
                        | Some p => ret (id p)
                        | None => throw
                        end
                      else AIEngine.afterRevenge alivePlayers
                    else AIEngine.afterRevenge alivePlayers
                  else AIEngine.afterRevenge alivePlayers
              | None => AIEngine.afterRevenge alivePlayers
              end w = Some (id p, w') /\
              (In p allPlayers /\ isAlive p = true /\ id p <> id aiPlayer) /\
              onlyDraws w w').
  { pose proof (onlyDraws_refl w) as Hd0.
    assert (Hd1 : onlyDraws w (afterDraw w))
      by apply onlyDraws_afterDraw, onlyDraws_refl.
    intros [memory|]; [|by apply Hrest].
    destruct (0 <? length (grudges memory))%nat; [|by apply Hrest].
    set (grudgeTargets := List.filter _ alivePlayers).
    destruct (0 <? length grudgeTargets)%nat eqn:E; [|by apply Hrest].
    apply length_pos_nonempty in E.
    unfold bind at 1. rewrite mathRandom_run.
    destruct (ltb (random w (drawn w)) (4 # 5));
      [|apply Hrest; [by apply validDraws_afterDraw | done]].
    destruct (randomPick_total grudgeTargets (afterDraw w)) as [p [Hp Hpin]];
      [by apply validDraws_afterDraw | done |].
    exists p, (afterDraw (afterDraw w)). split; [exact Hp|]. split.
    - apply Hsub. apply filter_In in Hpin. by destruct Hpin.
    - apply onlyDraws_afterDraw, onlyDraws_afterDraw, onlyDraws_refl. }
  unfold bind at 1.
  destruct (aiMemories !! id aiPlayer) as [l|] eqn:El.
  - destruct (Hclosed l El) as [m Hm].
    unfold bind, load. rewrite Hm. simpl. apply (Hmem (Some m)).
  - simpl. apply (Hmem None).
Qed.

Lemma includes_nil_filter (alive : list Player) :
  List.filter (fun p => includes [] (id p)) alive = [].
Proof. induction alive as [|p rest IH]; [done|]. simpl. exact IH. Qed.

(** The decision in terms of the grudges that the armed actor holds. *)
Lemma decideTarget_by_grudges (aiPlayer : Player) (allPlayers : list Player)
    (aiMemories : gmap string loc) (config : GameConfig) (w : World) :
  closedAt w aiMemories (id aiPlayer) ->
  AIEngine.decideTarget aiPlayer allPlayers aiMemories config w =
    (let alivePlayers := aliveOthers aiPlayer allPlayers in
     let grudgeTargets :=
       List.filter (fun p => includes (grudgesOf w aiMemories (id aiPlayer)) (id p))
                   alivePlayers in
     if (0 <? length grudgeTargets)%nat then
       let* r := mathRandom in
       if ltb r (4 # 5) then
         let* r2 := mathRandom in
         match arrayAt grudgeTargets (floorTimes r2 (length grudgeTargets)) with
         | Some p => ret (id p)
         | None => throw
         end
       else AIEngine.afterRevenge alivePlayers
     else AIEngine.afterRevenge alivePlayers) w.
Proof.
  intros Hclosed. unfold AIEngine.decideTarget, grudgesOf.
  fold (aliveOthers aiPlayer allPlayers). cbv zeta. unfold bind at 1.
  destruct (aiMemories !! id aiPlayer) as [l|] eqn:El.
  - destruct (Hclosed l El) as [memory Hm].
    unfold bind at 1, load. rewrite Hm. unfold ret at 1.
    destruct (0 <? length (grudges memory))%nat eqn:E; [done|].
    destruct (grudges memory); [|done].
    by rewrite includes_nil_filter.
  - unfold ret at 1. by rewrite includes_nil_filter.
Qed.

Lemma aliveOthers_In (aiPlayer p : Player) (allPlayers : list Player) :
  In p (aliveOthers aiPlayer allPlayers) <->
  In p allPlayers /\ isAlive p = true /\ id p <> id aiPlayer.
Proof.
  unfold aliveOthers. rewrite filter_In, andb_true_iff, negb_true_iff.
  rewrite String.eqb_neq. tauto.
Qed.

Lemma afterHuman_inv (alivePlayers : list Player) (w : World) (t : string)
    (w' : World) :
  AIEngine.afterHuman alivePlayers w = Some (t, w') ->
  (exists p, In p alivePlayers /\ t = id p) /\
  onlyDraws w w' /\ (drawn w' <= drawn w + 1)%nat.
Proof.
  unfold AIEngine.afterHuman.
  set (aiTargets := List.filter _ alivePlayers).
  destruct (0 <? length aiTargets)%nat.
  - destruct (sortByHealth aiTargets !! 0%nat) as [p|] eqn:Ep; [|done].
    intros H. inversion H; subst. split.
    + exists p. split; [|done].
      assert (Hin : In p (sortByHealth aiTargets)).
      { apply list_elem_of_In. by eapply list_elem_of_lookup_2. }
      apply sortByHealth_In, filter_In in Hin. by destruct Hin.
    + split; [apply onlyDraws_refl | lia].
  - unfold bind. rewrite mathRandom_run.
    destruct (arrayAt alivePlayers _) as [p|] eqn:Ep; [|done].
    intros H. inversion H; subst. split.
    + exists p. split; [|done]. apply arrayAt_lookup in Ep as [Ep _].
      apply list_elem_of_In. by eapply list_elem_of_lookup_2.
    + split; [apply onlyDraws_afterDraw, onlyDraws_refl | simpl; lia].
Qed.

Lemma afterRevenge_inv (alivePlayers : list Player) (w : World) (t : string)
    (w' : World) :
  AIEngine.afterRevenge alivePlayers w = Some (t, w') ->
  (exists p, In p alivePlayers /\ t = id p) /\
  onlyDraws w w' /\ (drawn w' <= drawn w + 2)%nat.
Proof.
  unfold AIEngine.afterRevenge.
  destruct (List.find _ alivePlayers) as [human|] eqn:E.
  - unfold bind. rewrite mathRandom_run.
    destruct (ltb (random w (drawn w)) double06).
    + intros H. inversion H; subst. split.
      * exists human. split; [|done]. apply find_some in E. by destruct E.
      * split; [apply onlyDraws_afterDraw, onlyDraws_refl | simpl; lia].
    + intros H. apply afterHuman_inv in H as (Hp & Hd & Hn).
      split; [done|]. split; [by apply onlyDraws_afterDraw | simpl in Hn; lia].
  - intros H. apply afterHuman_inv in H as (Hp & Hd & Hn).
    split; [done|]. split; [done | lia].
Qed.

Lemma decideTarget_inv (aiPlayer : Player) (allPlayers : list Player)
    (aiMemories : gmap string loc) (config : GameConfig) (w : World)
    (t : string) (w' : World) :
  AIEngine.decideTarget aiPlayer allPlayers aiMemories config w = Some (t, w') ->
  (exists p, In p allPlayers /\ isAlive p = true /\ id p <> id aiPlayer /\
             t = id p) /\
  onlyDraws w w' /\ (drawn w' <= drawn w + 3)%nat.
Proof.
  intros Hrun.
  assert (Hclosed : closedAt w aiMemories (id aiPlayer)).
  { intros l Hl. destruct (heap w !! l) eqn:Hh; [done|]. exfalso.
    unfold AIEngine.decideTarget, bind, load in Hrun.
    by rewrite Hl, Hh in Hrun. }
  rewrite (decideTarget_by_grudges _ _ _ _ _ Hclosed) in Hrun. cbv zeta in Hrun.
  set (alivePlayers := aliveOthers aiPlayer allPlayers) in *.
  set (grudgeTargets := List.filter _ alivePlayers) in *.
  assert (Hlift : forall w1,
            AIEngine.afterRevenge alivePlayers w1 = Some (t, w') ->
            (exists p, In p allPlayers /\ isAlive p = true /\
                       id p <> id aiPlayer /\ t = id p) /\
            onlyDraws w1 w' /\ (drawn w' <= drawn w1 + 2)%nat).
  { intros w1 H. apply afterRevenge_inv in H as ([p [Hin ->]] & Hd & Hn).
    split; [|done]. exists p. apply aliveOthers_In in Hin. tauto. }
  destruct (0 <? length grudgeTargets)%nat.
  - unfold bind at 1 in Hrun. rewrite mathRandom_run in Hrun.
    destruct (ltb (random w (drawn w)) (4 # 5)).
    + unfold bind in Hrun. rewrite mathRandom_run in Hrun.
      destruct (arrayAt grudgeTargets _) as [p|] eqn:Ep; [|done].
      inversion Hrun; subst. split.
      * exists p. apply arrayAt_lookup in Ep as [Ep _].
        assert (Hin : In p grudgeTargets).
        { apply list_elem_of_In. by eapply list_elem_of_lookup_2. }
        apply filter_In in Hin as [Hin _]. apply aliveOthers_In in Hin. tauto.
      * split; [apply onlyDraws_afterDraw, onlyDraws_afterDraw, onlyDraws_refl|].
        simpl. lia.
    + apply Hlift in Hrun as (Hp & Hd & Hn). split; [done|].
      split; [by apply onlyDraws_afterDraw | simpl in Hn; lia].
  - apply Hlift in Hrun as (Hp & Hd & Hn). split; [done|]. split; [done | lia].
Qed.

(** C8. For every armed actor, player list and grudge memory with at least
    one other alive actor, and for all draws of the random source, the
    target decision returns: its result is the id of an actor of the list
    that is alive and whose id differs from the deciding actor's. *)
Theorem decideTarget_never_fails (aiPlayer : Player) (allPlayers : list Player)
    (aiMemories : gmap string loc) (config : GameConfig) (w : World) :
  validDraws w ->
  closedAt w aiMemories (id aiPlayer) ->
  (exists other, In other allPlayers /\ isAlive other = true /\
                 id other <> id aiPlayer) ->
  exists p w',
    AIEngine.decideTarget aiPlayer allPlayers aiMemories config w = Some (id p, w') /\
    In p allPlayers /\ isAlive p = true /\ id p <> id aiPlayer.
Proof.
  intros Hv Hclosed Hother.
  destruct (decideTarget_total aiPlayer allPlayers aiMemories config w
              Hv Hclosed Hother) as (p & w' & Hrun & Hp & _).
  by exists p, w'.
Qed.

Lemma decideTarget_never_fails_witness :
  exists p w',
    AIEngine.decideTarget (examplePlayer "ai-1" PlayerType.AI 3) examplePlayers
                          ∅ GAME_CONFIG exampleWorld = Some (id p, w') /\
    In p examplePlayers /\ isAlive p = true /\
    id p <> id (examplePlayer "ai-1" PlayerType.AI 3).
Proof.
  apply decideTarget_never_fails.
  - exact exampleWorld_valid.
  - intros l H. rewrite lookup_empty in H. discriminate H.
  - exists (examplePlayer "player-0" PlayerType.HUMAN 3).
    split; [by left|]. split; [reflexivity|]. discriminate.
Defined.

(** ** The armed-actor draw (C5) *)

(** C5. In every state with at least one alive actor, for every tape of
    draws, the spin returns: the armed actor is the alive actor at index
    floor(r * n), for r the first draw, n the number of alive actors and
    the product that of [Math.random() * alivePlayers.length], the exact
    product rounded to the nearest double. The index is [i] only for a
    draw less than [2^-53] outside the interval from [i/n] to [(i+1)/n],
    and it is [i] for every draw of that interval at least [2^-53] away
    from its ends: each alive actor is selected on an interval of draws of
    length 1/n, up to the rounding of the product at its ends. The draw is
    the same under two configurations that differ only in
    [playerShootChance] and [aiShootChance]. *)
Theorem spinRevolver_uniform_draw (state : GameState) (w : World) :
  validDraws w ->
  List.filter isAlive (players state) <> [] ->
  let alivePlayers := List.filter isAlive (players state) in
  let r := random w (drawn w) in
  let n := length alivePlayers in
  (exists shooter (i : nat) result w',
     GameEngine.spinRevolver state w = Some (result, w') /\
     Z.of_nat i = floorTimes r n /\
     alivePlayers !! i = Some shooter /\
     GameEngine.shooterId result = id shooter /\
     In shooter (players state) /\ isAlive shooter = true /\
     drawn w' = S (S (drawn w))) /\
  (isDouble r = true -> (Z.of_nat n <= 2 ^ 53)%Z ->
   floorTimes r n = Qfloor (round64 (r * inject_Z (Z.of_nat n)))) /\
  (forall i : Z,
     (floorTimes r n = i ->
      (inject_Z i / inject_Z (Z.of_nat n) - epsilon < r)%Q /\
      (r < (inject_Z i + 1) / inject_Z (Z.of_nat n) + epsilon)%Q) /\
     ((inject_Z i / inject_Z (Z.of_nat n) + epsilon <= r)%Q /\
      (r < (inject_Z i + 1) / inject_Z (Z.of_nat n) - epsilon)%Q ->
      floorTimes r n = i)) /\
  (forall config actions human ai w0,
     drawAfter (withBias human ai config) actions w0 = drawAfter config actions w0).
Proof.
  intros Hv Hne alivePlayers r n.
  assert (Hn : (0 < n)%nat).
  { unfold n. destruct alivePlayers eqn:E; [done | simpl; lia]. }
  split; [|split; [|split]].
  - destruct (arrayAt_in_range alivePlayers (floorTimes r n)) as [shooter [Hs Hin]].
    { apply floorTimes_range; [apply Hv | done]. }
    pose proof (floorTimes_range r n (Hv _) Hn) as Hrange.
    exists shooter, (Z.to_nat (floorTimes r n)).
    unfold GameEngine.spinRevolver, bind. rewrite mathRandom_run.
    fold alivePlayers. fold r. fold n. rewrite Hs. rewrite mathRandom_run.
    do 2 eexists. split; [reflexivity|].
    split; [lia|]. split.
    { unfold arrayAt in Hs. destruct (floorTimes r n <? 0)%Z; [done | exact Hs]. }
    split; [reflexivity|].
    apply filter_In in Hin as [Hin Hal]. done.
  - intros Hd Hle. apply floorTimes_double; [apply Hv | done | done].
  - intros i. apply floorTimes_slot; [apply Hv | done].
  - reflexivity.
Qed.

Lemma spinRevolver_uniform_draw_witness :
  exists result w',
    GameEngine.spinRevolver
      {| players := examplePlayers; currentShooter := None;
         selectedTarget := None; phase := GamePhase.SPINNING;
         revolverRotation := 0; aiMemories := ∅; turnHistory := [];
         gameStartTime := 0; lastSaveTime := 0 |} exampleWorld
      = Some (result, w') /\
    drawn w' = 2%nat.
Proof.
  destruct (spinRevolver_uniform_draw
              {| players := examplePlayers; currentShooter := None;
                 selectedTarget := None; phase := GamePhase.SPINNING;
                 revolverRotation := 0; aiMemories := ∅; turnHistory := [];
                 gameStartTime := 0; lastSaveTime := 0 |} exampleWorld
              exampleWorld_valid ltac:(discriminate))
    as [(shooter & i & result & w' & Hrun & _ & _ & _ & _ & _ & Hd) _].
  exists result, w'. split; [exact Hrun | exact Hd].
Defined.

(** ** Grudge memory (C9) *)

Lemma includes_In (arr : list string) (s : string) :
  includes arr s = true <-> In s arr.
Proof.
  unfold includes. rewrite existsb_exists. split.
  - intros [x [Hin Heq]]. apply String.eqb_eq in Heq. by subst.
  - intros Hin. exists s. split; [done|]. apply String.eqb_refl.
Qed.

Lemma includes_pushed (arr : list string) (s : string) :
  includes (arr ++ [s]) s = true.
Proof. apply includes_In, in_or_app. right. by left. Qed.

Lemma pushOnce_idempotent (arr : list string) (s : string) :
  pushOnce (pushOnce arr s) s = pushOnce arr s.
Proof.
  unfold pushOnce. destruct (includes arr s) eqn:E.
  - by rewrite E.
  - by rewrite includes_pushed.
Qed.

Lemma pushOnce_In (arr : list string) (s : string) : In s (pushOnce arr s).
Proof.
  unfold pushOnce. destruct (includes arr s) eqn:E.
  - by apply includes_In.
  - apply in_or_app. right. by left.
Qed.

Lemma pushOnce_prefix (arr : list string) (s : string) :
  arr `prefix_of` pushOnce arr s.
Proof.
  unfold pushOnce. destruct (includes arr s).
  - done.
  - by apply prefix_app_r.
Qed.

Lemma pushOnce_NoDup (arr : list string) (s : string) :
  List.NoDup arr -> List.NoDup (pushOnce arr s).
Proof.
  intros Hnd. unfold pushOnce. destruct (includes arr s) eqn:E; [done|].
  apply NoDup_ListNoDup, NoDup_app. split; [by apply NoDup_ListNoDup|].
  split; [|apply NoDup_singleton].
  intros x Hx Hx'. apply list_elem_of_singleton in Hx'. subst x.
  apply list_elem_of_In, includes_In in Hx. congruence.
Qed.

(** The update of an object that the map already holds for the target. *)
Lemma updateMemory_existing (m : gmap string loc) (victim shooterId : string)
    (w : World) (l : loc) (memory : AIMemory) :
  String.prefix "ai-" victim = true ->
  m !! victim = Some l -> heap w !! l = Some memory ->
  AIEngine.updateMemory m (Some victim) shooterId true w =
    Some (<[victim := l]> m,
          if includes (grudges memory) shooterId then w
          else setHeap (<[l := {| playerId := playerId memory;
                                  grudges := grudges memory ++ [shooterId] |}]>
                          (heap w)) w).
Proof.
  intros Hp Hm Hh. unfold AIEngine.updateMemory. rewrite Hp, Hm.
  unfold bind, ret, load. simpl. rewrite Hh.
  by destruct (includes (grudges memory) shooterId).
Qed.

(** The update when the map has no entry for the target: a new object. *)
Lemma updateMemory_new (m : gmap string loc) (victim shooterId : string)
    (w : World) :
  String.prefix "ai-" victim = true ->
  m !! victim = None ->
  AIEngine.updateMemory m (Some victim) shooterId true w =
    Some (<[victim := fresh (dom (heap w))]> m,
          setHeap (<[fresh (dom (heap w)) :=
                       {| playerId := victim; grudges := [shooterId] |}]>
                     (heap w)) w).
Proof.
  intros Hp Hm. unfold AIEngine.updateMemory. rewrite Hp, Hm.
  unfold bind, ret, load, alloc, store. simpl.
  rewrite lookup_insert_eq. simpl. by rewrite insert_insert_eq.
Qed.

Lemma fresh_not_allocated (w : World) : heap w !! fresh (dom (heap w)) = None.
Proof. apply not_elem_of_dom, is_fresh. Qed.

(** The effect of a blank recorded for [victim], in terms of grudge sets. *)
Lemma updateMemory_blank (m : gmap string loc) (victim shooterId : string)
    (w : World) :
  String.prefix "ai-" victim = true ->
  closedAt w m victim ->
  exists l w1,
    AIEngine.updateMemory m (Some victim) shooterId true w = Some (<[victim := l]> m, w1) /\
    is_Some (heap w1 !! l) /\
    grudgesOf w1 (<[victim := l]> m) victim = pushOnce (grudgesOf w m victim) shooterId /\
    (forall k, grudgesOf w m k `prefix_of` grudgesOf w1 (<[victim := l]> m) k) /\
    (forall l', is_Some (heap w !! l') -> is_Some (heap w1 !! l')) /\
    (m !! victim = Some l \/ m !! victim = None /\ heap w !! l = None) /\
    (forall l', l' <> l -> heap w1 !! l' = heap w !! l') /\
    (includes (grudgesOf w m victim) shooterId = true -> m !! victim = Some l -> w1 = w) /\
    random w1 = random w /\ drawn w1 = drawn w /\
    clock w1 = clock w /\ ticks w1 = ticks w.
Proof.
  intros Hp Hclosed. destruct (m !! victim) as [l|] eqn:Hm.
  - destruct (Hclosed l Hm) as [memory Hh]. exists l.
    eexists. split; [by apply updateMemory_existing|].
    assert (Hold : grudgesOf w m victim = grudges memory).
    { unfold grudgesOf. by rewrite Hm, Hh. }
    rewrite Hold. unfold pushOnce.
    destruct (includes (grudges memory) shooterId) eqn:Hinc.
    + split; [by rewrite Hh|]. split.
      { unfold grudgesOf. by rewrite lookup_insert_eq, Hh. }
      split.
      { intros k. unfold grudgesOf.
        destruct (decide (k = victim)) as [->|Hne].
        - by rewrite lookup_insert_eq, Hm.
        - by rewrite lookup_insert_ne. }
      repeat split; auto.
    + simpl. split; [by rewrite lookup_insert_eq|]. split.
      { unfold grudgesOf. simpl. by rewrite !lookup_insert_eq. }
      split.
      { intros k. unfold grudgesOf. simpl.
        assert (Hk : <[victim := l]> m !! k = m !! k).
        { destruct (decide (k = victim)) as [->|Hne].
          - by rewrite lookup_insert_eq, Hm.
          - by rewrite lookup_insert_ne. }
        rewrite Hk. destruct (m !! k) as [l'|]; [|done].
        destruct (decide (l' = l)) as [->|Hne].
        - rewrite lookup_insert_eq, Hh. simpl. by apply prefix_app_r.
        - by rewrite lookup_insert_ne. }
      split.
      { intros l' Hl'. destruct (decide (l' = l)) as [->|Hne].
        - by rewrite lookup_insert_eq.
        - by rewrite lookup_insert_ne. }
      split; [by left|]. split.
      { intros l' Hne. by rewrite lookup_insert_ne. }
      split; [done|]. repeat split.
  - exists (fresh (dom (heap w))). eexists.
    split; [by apply updateMemory_new|]. simpl.
    pose proof (fresh_not_allocated w) as Hfresh.
    assert (Hold : grudgesOf w m victim = []).
    { unfold grudgesOf. by rewrite Hm. }
    rewrite Hold. unfold pushOnce. simpl.
    split; [by rewrite lookup_insert_eq|]. split.
    { unfold grudgesOf. simpl. by rewrite !lookup_insert_eq. }
    split.
    { intros k. unfold grudgesOf. simpl.
      destruct (decide (k = victim)) as [->|Hne].
      - rewrite Hm. apply prefix_nil.
      - rewrite lookup_insert_ne by done.
        destruct (m !! k) as [l'|]; [|done].
        destruct (decide (l' = fresh (dom (heap w)))) as [->|Hne'].
        + rewrite Hfresh. apply prefix_nil.
        + by rewrite lookup_insert_ne. }
    split.
    { intros l' Hl'. destruct (decide (l' = fresh (dom (heap w)))) as [->|Hne].
      - by rewrite lookup_insert_eq.
      - by rewrite lookup_insert_ne. }
    split; [by right|]. split.
    { intros l' Hne. by rewrite lookup_insert_ne. }
    split; [done|]. repeat split.
Qed.

Lemma updateMemory_monotone (m : gmap string loc) (targetId : option string)
    (shooterId : string) (wasBlank : bool) (w : World)
    (m' : gmap string loc) (w' : World) :
  AIEngine.updateMemory m targetId shooterId wasBlank w = Some (m', w') ->
  forall k, grudgesOf w m k `prefix_of` grudgesOf w' m' k.
Proof.
  intros Hrun k. destruct wasBlank; [|by inversion Hrun].
  destruct targetId as [victim|]; [|done].
  destruct (String.prefix "ai-" victim) eqn:Hp.
  - assert (Hclosed : closedAt w m victim).
    { intros l Hl. destruct (heap w !! l) eqn:Hh; [done|]. exfalso.
      unfold AIEngine.updateMemory in Hrun. rewrite Hp, Hl in Hrun.
      unfold bind, ret, load in Hrun. simpl in Hrun. by rewrite Hh in Hrun. }
    destruct (updateMemory_blank m victim shooterId w Hp Hclosed)
      as (l & w1 & Hrun1 & _ & _ & Hmono & _).
    rewrite Hrun1 in Hrun. inversion Hrun; subst. apply Hmono.
  - unfold AIEngine.updateMemory in Hrun. rewrite Hp in Hrun.
    by inversion Hrun.
Qed.

(** C9. Recording a blank for a victim whose id starts with "ai-" returns,
    and recording the same shooter a second time changes neither the map
    nor the heap. The victim's grudge set then holds the shooter, once if
    the set had no duplicate before. Every grudge set of the map keeps its
    former entries, in their order, as a prefix, for all arguments of the
    update. Only the key of the victim is written: the other keys of the
    map, the shooter's among them, hold what they held. *)
Theorem updateMemory_idempotent_monotone (m : gmap string loc)
    (victim shooterId : string) (w : World) :
  String.prefix "ai-" victim = true ->
  closedAt w m victim ->
  exists m1 w1,
    AIEngine.updateMemory m (Some victim) shooterId true w = Some (m1, w1) /\
    AIEngine.updateMemory m1 (Some victim) shooterId true w1 = Some (m1, w1) /\
    In shooterId (grudgesOf w1 m1 victim) /\
    grudgesOf w1 m1 victim = pushOnce (grudgesOf w m victim) shooterId /\
    (List.NoDup (grudgesOf w m victim) ->
       List.NoDup (grudgesOf w1 m1 victim) /\
       count_occ String.string_dec (grudgesOf w1 m1 victim) shooterId = 1%nat) /\
    (forall k, grudgesOf w m k `prefix_of` grudgesOf w1 m1 k) /\
    is_Some (m1 !! victim) /\
    (forall k, k <> victim -> m1 !! k = m !! k) /\
    (forall targetId wasBlank m' w',
       AIEngine.updateMemory m targetId shooterId wasBlank w = Some (m', w') ->
       forall k, grudgesOf w m k `prefix_of` grudgesOf w' m' k).
Proof.
  intros Hp Hclosed.
  destruct (updateMemory_blank m victim shooterId w Hp Hclosed)
    as (l & w1 & Hrun & [memory1 Hh1] & Hg & Hmono & _).
  exists (<[victim := l]> m), w1.
  assert (Hin : In shooterId (grudgesOf w1 (<[victim := l]> m) victim)).
  { rewrite Hg. apply pushOnce_In. }
  split; [exact Hrun|]. split.
  { rewrite (updateMemory_existing _ victim shooterId w1 l memory1 Hp);
      [|by rewrite lookup_insert_eq | done].
    rewrite insert_insert_eq.
    assert (Hinc : includes (grudges memory1) shooterId = true).
    { apply includes_In. unfold grudgesOf in Hin.
      by rewrite lookup_insert_eq, Hh1 in Hin. }
    by rewrite Hinc. }
  split; [exact Hin|]. split; [exact Hg|]. split.
  { intros Hnd.
    assert (Hnd1 : List.NoDup (grudgesOf w1 (<[victim := l]> m) victim)).
    { rewrite Hg. by apply pushOnce_NoDup. }
    split; [exact Hnd1|].
    by apply (proj1 (NoDup_count_occ' String.string_dec _) Hnd1). }
  split; [exact Hmono|]. split; [by rewrite lookup_insert_eq|]. split.
  { intros k Hne. by rewrite lookup_insert_ne. }
  intros targetId wasBlank m' w' Hrun'. by eapply updateMemory_monotone.
Qed.

Lemma updateMemory_idempotent_monotone_witness :
  exists m1 w1,
    AIEngine.updateMemory ∅ (Some "ai-2") "player-0" true exampleWorld = Some (m1, w1) /\
    AIEngine.updateMemory m1 (Some "ai-2") "player-0" true w1 = Some (m1, w1) /\
    grudgesOf w1 m1 "ai-2" = ["player-0"].
Proof.
  destruct (updateMemory_idempotent_monotone ∅ "ai-2" "player-0" exampleWorld)
    as (m1 & w1 & H1 & H2 & _ & Hg & _).
  - reflexivity.
  - intros l H. rewrite lookup_empty in H. discriminate H.
  - exists m1, w1. split; [exact H1|]. split; [exact H2|]. exact Hg.
Defined.

(** ** Health and the alive set (C4, C6) *)

Lemma recordTurn_run (s : GameState) (sh tg : option string) (b k : bool)
    (w : World) (s' : GameState) (w' : World) :
  GameEngine.recordTurn s sh tg b k w = Some (s', w') ->
  players s' = players s /\ aiMemories s' = aiMemories s /\
  phase s' = phase s /\ currentShooter s' = currentShooter s /\
  selectedTarget s' = selectedTarget s /\
  heap w' = heap w /\
  turnHistory s' =
    (turnHistory s ++ [{| timestamp := clock w (ticks w); shooter := sh;
                          target := tg; wasBlank := b; killed := k |}])%list.
Proof. intros H. inversion H; subst. by repeat split. Qed.

(** The [SHOT_RESULT] case of the reducer, with [target] named. *)
Lemma gameReducer_SHOT_RESULT (s : GameState) (isHit : bool) :
  gameReducer s (SHOT_RESULT isHit) =
    let targetIndex :=
      findIndex (fun p => optEqb (Some (id p)) (selectedTarget s)) (players s) in
    let* '(newPlayers, killed) :=
      if isHit then
        match selectedPlayer s with
        | None => throw
        | Some target =>
            ret (<[Z.to_nat targetIndex := GameEngine.applyDamage target]> (players s),
                 negb (isAlive (GameEngine.applyDamage target)))
        end
      else ret (players s, false) in
    let* newMemories :=
      if negb isHit && optEqb (currentShooter s) (Some "player-0") then
        AIEngine.updateMemory (aiMemories s) (selectedTarget s) "player-0" true
      else ret (aiMemories s) in
    let* recorded :=
      GameEngine.recordTurn
        (set_aiMemories newMemories (set_players newPlayers s))
        (currentShooter s) (selectedTarget s) (negb isHit) killed in
    ret recorded.
Proof. reflexivity. Qed.

Lemma shotResult_players (s : GameState) (isHit : bool) (w : World)
    (s' : GameState) (w' : World) :
  gameReducer s (SHOT_RESULT isHit) w = Some (s', w') ->
  if isHit then
    exists (j : nat) (q : Player),
      selectedPlayer s = Some q /\ players s !! j = Some q /\
      players s' = <[j := GameEngine.applyDamage q]> (players s)
  else players s' = players s.
Proof.
  rewrite gameReducer_SHOT_RESULT. cbv zeta. intros Hrun.
  apply bind_inv in Hrun as ([newPlayers killed] & w1 & Hhit & Hrun).
  apply bind_inv in Hrun as (newMemories & w2 & Hmem & Hrun).
  apply bind_inv in Hrun as (recorded & w3 & Hrec & Hret).
  inversion Hret; subst. apply recordTurn_run in Hrec as (Hps & _).
  rewrite Hps. destruct isHit.
  - destruct (selectedPlayer s) as [q|] eqn:Hq; [|done].
    inversion Hhit; subst. unfold selectedPlayer in Hq.
    apply arrayAt_lookup in Hq as [Hq _]. eauto.
  - by inversion Hhit.
Qed.

Lemma sessionAction_players (s : GameState) (a : GameAction) (w : World)
    (s' : GameState) (w' : World) :
  sessionAction a = true ->
  gameReducer s a w = Some (s', w') ->
  players s' = players s \/
  exists (j : nat) (q : Player),
    a = SHOT_RESULT true /\ selectedPlayer s = Some q /\
    players s !! j = Some q /\
    players s' = <[j := GameEngine.applyDamage q]> (players s).
Proof.
  intros Ha Hrun. destruct a; try done; try (left; by inversion Hrun).
  pose proof (shotResult_players s isHit w s' w' Hrun) as H.
  destruct isHit; [|by left].
  destruct H as (j & q & Hq & Hj & Hps). right. by exists j, q.
Qed.

Lemma healthy_damage (ps : list Player) (j : nat) (q : Player) :
  healthy ps -> ps !! j = Some q -> isAlive q = true ->
  healthy (<[j := GameEngine.applyDamage q]> ps).
Proof.
  intros Hh Hj Hq. apply Forall_insert; [done|].
  destruct (Forall_lookup_1 _ _ _ _ Hh Hj) as [H0 Hal]. simpl.
  rewrite Hq in Hal. symmetry in Hal. apply Z.ltb_lt in Hal.
  split; [lia | reflexivity].
Qed.

(** C4 as the specification states it (stored health is never negative in
    a state reached through the commands) does not hold: on a new game with
    three health points, select-target "ai-1" and four hits are all
    accepted, and the stored health of "ai-1" ends at -1. The fourth hit
    lands on an actor that is not alive. *)
Lemma fourth_hit_stores_negative_health :
  exists s w,
    (let* start := GameEngine.initializeGame GAME_CONFIG in
     dispatchAll start
       [SELECT_TARGET "ai-1"; SHOT_RESULT true; SHOT_RESULT true;
        SHOT_RESULT true; SHOT_RESULT true]) exampleWorld = Some (s, w) /\
    map (fun p => (id p, health p, isAlive p)) (players s) =
      [("player-0", 3%Z, true); ("ai-1", (-1)%Z, false); ("ai-2", 3%Z, true);
       ("ai-3", 3%Z, true); ("ai-4", 3%Z, true)].
Proof. do 2 eexists. split; vm_compute; reflexivity. Qed.

(** The players in the three states that an AI turn hands to [onUpdate]. *)
Lemma executeAITurn_players (s : GameState) (config : GameConfig) (w : World)
    (us : list GameState) (w' : World) :
  AIEngine.executeAITurn s config w = Some (us, w') ->
  us = [] \/
  exists u1 u2 u3,
    us = [u1; u2; u3] /\ players u1 = players s /\
    hitOrSame (players s) (players u2) /\ players u3 = players u2.
Proof.
  unfold AIEngine.executeAITurn. intros Hrun.
  destruct (List.find _ (players s)) as [sh|]; [|left; by inversion Hrun].
  destruct (negb (PlayerType.eqb (type sh) PlayerType.AI));
    [left; by inversion Hrun|].
  right. cbv zeta in Hrun.
  apply bind_inv in Hrun as (r0 & w1 & _ & Hrun).
  apply bind_inv in Hrun as (targetId & w2 & _ & Hrun).
  apply bind_inv in Hrun as (isHit & w3 & _ & Hrun).
  apply bind_inv in Hrun as ([newPlayers killed] & w4 & Hhit & Hrun).
  apply bind_inv in Hrun as (newMemories & w5 & _ & Hrun).
  apply bind_inv in Hrun as (newState & w6 & Hrec & Hret).
  apply recordTurn_run in Hrec as (Hps & _). simpl in Hps.
  unfold ret in Hret. injection Hret as <- <-. do 3 eexists.
  split; [reflexivity|]. split; [reflexivity|]. split.
  - rewrite Hps. destruct isHit; [|left; by inversion Hhit].
    destruct (arrayAt (players s) _) as [q|] eqn:Hq; [|done].
    inversion Hhit; subst. apply arrayAt_lookup in Hq as [Hq _].
    right. eauto.
  - by destruct (GameEngine.isOver _).
Qed.

Lemma sessionStep_players (s s' : GameState) :
  sessionStep s s' -> hitOrSame (players s) (players s').
Proof.
  intros [s0 a w s1 w' Ha Hrun | s0 config w us w' i u u' Hrun Hu Hu'].
  - destruct (sessionAction_players s0 a w s1 w' Ha Hrun)
      as [-> | (j & q & _ & _ & Hj & ->)]; [by left | right; eauto].
  - destruct (executeAITurn_players s0 config w us w' Hrun)
      as [-> | (u1 & u2 & u3 & -> & H1 & H2 & H3)].
    + destruct i; simpl in Hu'; done.
    + destruct i as [|[|[|i]]]; simpl in Hu, Hu'; try done;
        inversion Hu; inversion Hu'; subst.
      * left. done.
      * by rewrite H1.
      * left. done.
Qed.

Lemma hitOrSame_seats (ps ps' : list Player) :
  hitOrSame ps ps' -> map seat ps' = map seat ps.
Proof.
  intros [-> | (j & q & Hj & ->)]; [done|].
  change (map seat (<[j := GameEngine.applyDamage q]> ps)) with
    (seat <$> <[j := GameEngine.applyDamage q]> ps).
  rewrite list_fmap_insert.
  apply list_insert_id. rewrite list_lookup_fmap, Hj. reflexivity.
Qed.

Lemma reachable_seats (s : GameState) :
  reachable s -> map seat (players s) = initialSeats.
Proof.
  induction 1 as [config w s w' Hinit | s s' Hreach IH Hstep].
  - inversion Hinit; subst. reflexivity.
  - rewrite <- IH. by apply hitOrSame_seats, sessionStep_players.
Qed.

Lemma reachable_ids (s : GameState) :
  reachable s -> List.NoDup (map id (players s)).
Proof.
  intros Hreach. pose proof (reachable_seats s Hreach) as Hs.
  assert (Hid : map id (players s) = map (fun x => x.1.1.1.1) (map seat (players s))).
  { rewrite map_map. reflexivity. }
  rewrite Hs in Hid. rewrite Hid.
  repeat (constructor; [simpl; intuition discriminate|]). constructor.
Qed.

(** An AI turn damages the actor that its decision names, and the decision
    names an alive actor: with pairwise different ids, the states that the
    turn hands over keep the health in order. *)
Lemma executeAITurn_healthy (s : GameState) (config : GameConfig) (w : World)
    (us : list GameState) (w' : World) :
  healthy (players s) -> List.NoDup (map id (players s)) ->
  AIEngine.executeAITurn s config w = Some (us, w') ->
  Forall (fun u => healthy (players u)) us.
Proof.
  unfold AIEngine.executeAITurn. intros Hh Hnd Hrun.
  destruct (List.find _ (players s)) as [sh|];
    [|unfold ret in Hrun; injection Hrun as <- <-; constructor].
  destruct (negb (PlayerType.eqb (type sh) PlayerType.AI));
    [unfold ret in Hrun; injection Hrun as <- <-; constructor|].
  cbv zeta in Hrun.
  apply bind_inv in Hrun as (r0 & w1 & _ & Hrun).
  apply bind_inv in Hrun as (targetId & w2 & Hdec & Hrun).
  apply bind_inv in Hrun as (isHit & w3 & _ & Hrun).
  apply bind_inv in Hrun as ([newPlayers killed] & w4 & Hhit & Hrun).
  apply bind_inv in Hrun as (newMemories & w5 & _ & Hrun).
  apply bind_inv in Hrun as (newState & w6 & Hrec & Hret).
  apply recordTurn_run in Hrec as (Hps & _). simpl in Hps.
  apply decideTarget_inv in Hdec as ((p & Hin & Halive & _ & ->) & _).
  assert (Hnew : healthy newPlayers).
  { destruct isHit; [|unfold ret in Hhit; by injection Hhit as <- <-].
    destruct (findIndex_found (fun q => String.eqb (id q) (id p)) (players s))
      as (q & Hq & Hid).
    { exists p. split; [done | apply String.eqb_refl]. }
    rewrite Hq in Hhit. unfold ret in Hhit. injection Hhit as <- _ _.
    apply String.eqb_eq in Hid. apply arrayAt_lookup in Hq as [Hq _].
    assert (Hqin : In q (players s)).
    { apply list_elem_of_In. by eapply list_elem_of_lookup_2. }
    rewrite (NoDup_ids_same (players s) q p Hnd Hqin Hin Hid) in Hq |- *.
    by apply healthy_damage. }
  unfold ret in Hret. injection Hret as <- <-.
  repeat constructor; [done | by rewrite Hps |].
  destruct (GameEngine.isOver _); simpl; by rewrite Hps.
Qed.

(** C4, as the code has it. Damage lowers health by exactly one and sets
    the alive flag to whether the new health is positive; the reducer
    applies it to the selected target without looking at its alive flag.
    A new game with a starting health of at least one stores health that is
    not negative, with alive flags that say whether it is positive. Every
    action of a running session keeps it so, a hit resolution provided that
    the selected target is alive; and so does every state that an AI turn
    hands over, when the actors have pairwise different ids, which they have
    in every state of a session. *)
Theorem health_nonnegative_while_targets_alive :
  (forall p,
     health (GameEngine.applyDamage p) = (health p - 1)%Z /\
     isAlive (GameEngine.applyDamage p) = (0 <? health p - 1)%Z /\
     id (GameEngine.applyDamage p) = id p) /\
  (forall config w, (1 <= startingHealth config)%Z ->
     exists s w', GameEngine.initializeGame config w = Some (s, w') /\
                  healthy (players s)) /\
  (forall s a w s' w',
     healthy (players s) ->
     sessionAction a = true ->
     (a = SHOT_RESULT true ->
      forall q, selectedPlayer s = Some q -> isAlive q = true) ->
     gameReducer s a w = Some (s', w') ->
     healthy (players s') /\ Forall (fun p => (0 <= health p)%Z) (players s')) /\
  (forall s config w us w',
     healthy (players s) ->
     List.NoDup (map id (players s)) ->
     AIEngine.executeAITurn s config w = Some (us, w') ->
     Forall (fun u => healthy (players u) /\
                      Forall (fun p => (0 <= health p)%Z) (players u)) us) /\
  (forall s, reachable s -> List.NoDup (map id (players s))).
Proof.
  split; [by intros p|]. split; [|split; [|split; [|exact reachable_ids]]].
  - intros config w Hpos. do 2 eexists. split; [reflexivity|]. simpl.
    assert (E : true = (0 <? startingHealth config)%Z)
      by (symmetry; apply Z.ltb_lt; lia).
    repeat constructor; simpl; (lia || exact E).
  - intros s a w s' w' Hh Ha Halive Hrun.
    assert (Hh' : healthy (players s')).
    { destruct (sessionAction_players s a w s' w' Ha Hrun)
        as [-> | (j & q & Ea & Hq & Hj & ->)]; [done|].
      apply healthy_damage; auto. }
    split; [done|]. eapply Forall_impl; [exact Hh'|]. by intros p [H0 _].
  - intros s config w us w' Hh Hnd Hrun.
    eapply Forall_impl; [exact (executeAITurn_healthy s config w us w' Hh Hnd Hrun)|].
    intros u Hu. split; [done|]. eapply Forall_impl; [exact Hu|]. by intros p [H0 _].
Qed.

Lemma health_nonnegative_while_targets_alive_witness :
  (exists s' w',
     gameReducer exampleState (SHOT_RESULT true) exampleWorld = Some (s', w') /\
     map health (players s') = [3; 3; 0]%Z /\
     Forall (fun p => (0 <= health p)%Z) (players s')) /\
  (exists us w',
     AIEngine.executeAITurn aiArmedState GAME_CONFIG hitWorld = Some (us, w') /\
     map (fun u => map health (players u)) us =
       [[3; 3; 1]; [3; 3; 0]; [3; 3; 0]]%Z /\
     Forall (fun u => Forall (fun p => (0 <= health p)%Z) (players u)) us).
Proof.
  destruct health_nonnegative_while_targets_alive as (_ & _ & H & Hai & _).
  split.
  - do 2 eexists. split; [reflexivity|]. split; [reflexivity|].
    eapply (H exampleState (SHOT_RESULT true) exampleWorld).
    + repeat constructor; simpl; discriminate.
    + reflexivity.
    + intros _ q Hq. vm_compute in Hq. injection Hq as <-. reflexivity.
    + reflexivity.
  - do 2 eexists. split; [vm_compute; reflexivity|]. split; [reflexivity|].
    eapply Forall_impl.
    + eapply (Hai aiArmedState GAME_CONFIG hitWorld).
      * repeat constructor; simpl; discriminate.
      * repeat (constructor; [simpl; intuition discriminate|]). constructor.
      * vm_compute. reflexivity.
    + intros u [_ Hu]. exact Hu.
Defined.

Lemma aliveCount_insert (ps : list Player) (j : nat) (q x : Player) :
  ps !! j = Some q ->
  (isAlive q = false -> isAlive x = false) ->
  (aliveCount (<[j := x]> ps) <= aliveCount ps)%nat.
Proof.
  intros Hj Hx.
  rewrite insert_take_drop by (by eapply lookup_lt_Some).
  rewrite <- (take_drop_middle ps j q Hj) at 3.
  unfold aliveCount. rewrite !List.filter_app, !length_app. simpl.
  destruct (isAlive q) eqn:Eq, (isAlive x) eqn:Ex; simpl; try lia.
Qed.

Lemma hitOrSame_monotone (ps ps' : list Player) :
  buried ps -> hitOrSame ps ps' ->
  buried ps' /\ noResurrection ps ps' /\ (aliveCount ps' <= aliveCount ps)%nat.
Proof.
  intros Hb [-> | (j & q & Hj & ->)].
  - split; [done|]. split; [|done]. split; [done|]. intros i p Hp. by exists p.
  - assert (Hdead : isAlive q = false -> isAlive (GameEngine.applyDamage q) = false).
    { intros Hq. simpl. apply Z.ltb_ge.
      pose proof (Forall_lookup_1 _ _ _ _ Hb Hj Hq). lia. }
    split; [|split].
    + apply Forall_insert; [done|]. simpl. intros H. apply Z.ltb_ge in H. lia.
    + split; [apply length_insert|]. intros i p Hp.
      destruct (decide (i = j)) as [->|Hne].
      * exists (GameEngine.applyDamage q).
        rewrite list_lookup_insert_eq by (by eapply lookup_lt_Some).
        rewrite Hj in Hp. inversion Hp; subst. done.
      * exists p. by rewrite list_lookup_insert_ne.
    + by eapply aliveCount_insert.
Qed.

Lemma reachable_buried (s : GameState) : reachable s -> buried (players s).
Proof.
  induction 1 as [config w s w' Hinit | s s' Hreach IH Hstep].
  - inversion Hinit; subst. simpl. repeat constructor; simpl; discriminate.
  - by apply (hitOrSame_monotone _ _ IH), sessionStep_players.
Qed.

(** C6. Across every step of a session, from any state reached from a new
    game, the actors keep their seats and ids, an actor that is not alive
    stays not alive, and the number of alive actors does not grow. *)
Theorem alive_set_shrinks (s s' : GameState) :
  reachable s -> sessionStep s s' ->
  noResurrection (players s) (players s') /\
  (aliveCount (players s') <= aliveCount (players s))%nat.
Proof.
  intros Hreach Hstep.
  apply (hitOrSame_monotone _ _ (reachable_buried s Hreach)).
  by apply sessionStep_players.
Qed.

Lemma alive_set_shrinks_witness :
  exists s s',
    reachable s /\ sessionStep s s' /\
    (aliveCount (players s') <= aliveCount (players s))%nat.
Proof.
  assert (Hrun : exists s0 w0 s1 w1 s2 w2,
            GameEngine.initializeGame GAME_CONFIG exampleWorld = Some (s0, w0) /\
            gameReducer s0 (SELECT_TARGET "ai-1") w0 = Some (s1, w1) /\
            gameReducer s1 (SHOT_RESULT true) w1 = Some (s2, w2)).
  { do 6 eexists. split; [reflexivity|]. split; reflexivity. }
  destruct Hrun as (s0 & w0 & s1 & w1 & s2 & w2 & H0 & H1 & H2).
  assert (Hreach : reachable s1).
  { eapply reach_step; [eapply reach_init; exact H0|].
    eapply step_action; [|exact H1]. reflexivity. }
  assert (Hstep : sessionStep s1 s2).
  { eapply step_action; [|exact H2]. reflexivity. }
  exists s1, s2. split; [exact Hreach|]. split; [exact Hstep|].
  exact (proj2 (alive_set_shrinks s1 s2 Hreach Hstep)).
Defined.

(** ** Grudges after a blank (C3) *)









(** * Further properties of the code *)

(** ** lib/utils.ts *)

(** X1. For integers [min <= max] and a draw of the unit interval,
    [randomInt] reads one draw and returns an integer between [min] and
    [max], both included. *)
Theorem randomInt_between (min max : Z) (w : World) :
  validDraws w -> (min <= max)%Z ->
  exists n,
    Utils.randomInt min max w = Some (n, afterDraw w) /\
    (min <= n <= max)%Z.
Proof.
  intros Hv Hle. unfold Utils.randomInt, bind. rewrite mathRandom_run.
  eexists. split; [reflexivity|].
  pose proof (times_range (random w (drawn w)) (max - min + 1) (Hv _)
                ltac:(lia)).
  lia.
Qed.

Lemma randomInt_between_witness :
  exists n, Utils.randomInt 1 6 exampleWorld = Some (n, afterDraw exampleWorld) /\
            (1 <= n <= 6)%Z.
Proof.
  apply randomInt_between; [exact exampleWorld_valid | lia].
Defined.

(** X2. [randomElement] reads one draw. On an empty array it returns
    [undefined], for every draw; on a non-empty array, for a draw of the unit
    interval, it returns the element at index floor(r * length), an element
    of the array; the product is that of doubles, the exact product rounded
    to the nearest double. *)
Theorem randomElement_member {A} (array : list A) (w : World) :
  (array = [] -> Utils.randomElement array w = Some (None, afterDraw w)) /\
  (validDraws w -> array <> [] ->
     exists (i : nat) (x : A),
       Utils.randomElement array w = Some (Some x, afterDraw w) /\
       Z.of_nat i = floorTimes (random w (drawn w)) (length array) /\
       (isDouble (random w (drawn w)) = true ->
        (Z.of_nat (length array) <= 2 ^ 53)%Z ->
        Z.of_nat i =
          Qfloor (round64 (random w (drawn w) * inject_Z (Z.of_nat (length array))))) /\
       array !! i = Some x /\ In x array).
Proof.
  unfold Utils.randomElement, bind. rewrite mathRandom_run. split.
  - intros ->. unfold ret, arrayAt. simpl.
    by destruct (floorTimes (random w (drawn w)) 0 <? 0)%Z.
  - intros Hv Hne.
    assert (Hrange : (0 <= floorTimes (random w (drawn w)) (length array)
                      < Z.of_nat (length array))%Z).
    { apply floorTimes_range; [apply Hv|]. destruct array; [done | simpl; lia]. }
    destruct (arrayAt_in_range array _ Hrange) as [x [Hx Hin]].
    exists (Z.to_nat (floorTimes (random w (drawn w)) (length array))), x.
    unfold ret. rewrite Hx. split; [done|]. split; [lia|]. split.
    { intros Hd Hle. rewrite <- floorTimes_double; [lia | apply Hv | done | done]. }
    split; [|done]. by apply arrayAt_lookup in Hx as [Hx _].
Qed.

Lemma randomElement_member_witness :
  exists (i : nat) (x : string),
    Utils.randomElement AI_NAMES exampleWorld = Some (Some x, afterDraw exampleWorld) /\
    AI_NAMES !! i = Some x /\ x = "Natasha".
Proof.
  destruct (randomElement_member AI_NAMES exampleWorld) as [_ H].
  destruct (H exampleWorld_valid ltac:(discriminate)) as (i & x & Hrun & Hi & _ & Hx & _).
  exists i, x. split; [exact Hrun|]. split; [exact Hx|].
  vm_compute in Hrun. by injection Hrun as <-.
Defined.

Lemma shuffleLoop_permutation {A} (i : nat) :
  forall (shuffled : list A) (w : World),
    validDraws w -> (i < length shuffled)%nat ->
    exists shuffled' w',
      Utils.shuffleLoop i shuffled w = Some (shuffled', w') /\
      shuffled' ≡ₚ shuffled /\
      onlyDraws w w' /\ drawn w' = (drawn w + i)%nat.
Proof.
  induction i as [|i IH]; intros shuffled w Hv Hi.
  - exists shuffled, w. split; [done|]. split; [done|].
    split; [apply onlyDraws_refl | simpl; lia].
  - cbn [Utils.shuffleLoop]. unfold bind. rewrite mathRandom_run.
    set (j := floorTimes (random w (drawn w)) (S i + 1)).
    assert (Hj : (0 <= j < Z.of_nat (S i + 1))%Z).
    { apply floorTimes_range; [apply Hv | lia]. }
    destruct (arrayAt_in_range shuffled (Z.of_nat (S i)) ltac:(lia)) as [atI [HatI _]].
    destruct (arrayAt_in_range shuffled j ltac:(lia)) as [atJ [HatJ _]].
    rewrite HatI, HatJ.
    apply arrayAt_lookup in HatI as [HatI _]. rewrite Nat2Z.id in HatI.
    apply arrayAt_lookup in HatJ as [HatJ _].
    destruct (IH (<[Z.to_nat j := atI]> (<[S i := atJ]> shuffled)) (afterDraw w))
      as (l' & w' & Hrun & Hperm & Hd & Hn).
    { by apply validDraws_afterDraw. }
    { rewrite !length_insert. lia. }
    exists l', w'. split; [exact Hrun|]. split.
    + rewrite Hperm. by apply Permutation_insert_swap.
    + split; [by apply onlyDraws_afterDraw|]. rewrite Hn. simpl. lia.
Qed.

(** X3. For draws of the unit interval, [shuffle] returns a
    permutation of its argument (the same elements, as many times each),
    reads one draw for each element but the first, and touches nothing
    else. *)
Theorem shuffle_permutation {A} (array : list A) (w : World) :
  validDraws w ->
  exists shuffled w',
    Utils.shuffle array w = Some (shuffled, w') /\
    shuffled ≡ₚ array /\
    length shuffled = length array /\
    drawn w' = (drawn w + (length array - 1))%nat /\
    onlyDraws w w'.
Proof.
  intros Hv. unfold Utils.shuffle. destruct array as [|a array].
  - exists [], w. split; [done|]. split; [done|]. split; [done|].
    split; [simpl; lia | apply onlyDraws_refl].
  - destruct (shuffleLoop_permutation (length (a :: array) - 1) (a :: array) w Hv)
      as (l' & w' & Hrun & Hperm & Hd & Hn); [simpl; lia|].
    exists l', w'. split; [exact Hrun|]. split; [exact Hperm|].
    split; [by rewrite Hperm|]. done.
Qed.

Lemma shuffle_permutation_witness :
  exists shuffled w',
    Utils.shuffle AI_NAMES exampleWorld = Some (shuffled, w') /\
    shuffled ≡ₚ AI_NAMES /\ drawn w' = 3%nat.
Proof.
  destruct (shuffle_permutation AI_NAMES exampleWorld exampleWorld_valid)
    as (l' & w' & Hrun & Hperm & _ & Hn & _).
  exists l', w'. split; [exact Hrun|]. split; [exact Hperm | exact Hn].
Defined.

(** ** lib/gameEngine.ts: the spin *)



(** X5. With no alive actor [spinRevolver] throws, whatever the draws: it
    reads the position of an [undefined] shooter. *)
Theorem spinRevolver_throws_when_nobody_alive (state : GameState) (w : World) :
  List.filter isAlive (players state) = [] ->
  GameEngine.spinRevolver state w = None.
Proof.
  intros Hnone. unfold GameEngine.spinRevolver, bind.
  rewrite mathRandom_run, Hnone. unfold arrayAt. simpl.
  by destruct (floorTimes (random w (drawn w)) 0 <? 0)%Z.
Qed.

Lemma spinRevolver_throws_when_nobody_alive_witness :
  GameEngine.spinRevolver
    (set_players [examplePlayer "player-0" PlayerType.HUMAN 0] exampleState)
    exampleWorld = None.
Proof.
  apply spinRevolver_throws_when_nobody_alive. reflexivity.
Defined.

(** ** lib/aiEngine.ts: the target decision *)

(** X6. Whenever the target decision returns, whatever the draws, its
    result is the id of an actor of the list that is alive and is not the
    deciding actor; it has read at most three draws and has left the heap
    and the clock as they were. *)
Theorem decideTarget_frame (aiPlayer : Player) (allPlayers : list Player)
    (aiMemories : gmap string loc) (config : GameConfig) (w : World)
    (t : string) (w' : World) :
  AIEngine.decideTarget aiPlayer allPlayers aiMemories config w = Some (t, w') ->
  (exists p, In p allPlayers /\ isAlive p = true /\ id p <> id aiPlayer /\
             t = id p) /\
  onlyDraws w w' /\ (drawn w' <= drawn w + 3)%nat.
Proof. apply decideTarget_inv. Qed.

Lemma decideTarget_frame_witness :
  exists w',
    AIEngine.decideTarget (examplePlayer "ai-1" PlayerType.AI 3) examplePlayers
                          ∅ GAME_CONFIG exampleWorld = Some ("player-0", w') /\
    onlyDraws exampleWorld w' /\ (drawn w' <= 3)%nat.
Proof.
  eexists. split; [vm_compute; reflexivity|].
  eapply (decideTarget_frame (examplePlayer "ai-1" PlayerType.AI 3)
            examplePlayers ∅ GAME_CONFIG exampleWorld "player-0").
  vm_compute. reflexivity.
Defined.

(** X7. With no alive actor other than the deciding one, the target
    decision throws, whatever the memory and the draws. *)
Theorem decideTarget_throws_when_alone (aiPlayer : Player)
    (allPlayers : list Player) (aiMemories : gmap string loc)
    (config : GameConfig) (w : World) :
  (forall p, In p allPlayers -> isAlive p = true -> id p = id aiPlayer) ->
  AIEngine.decideTarget aiPlayer allPlayers aiMemories config w = None.
Proof.
  intros Halone.
  destruct (AIEngine.decideTarget aiPlayer allPlayers aiMemories config w)
    as [[t w']|] eqn:Hrun; [|done].
  apply decideTarget_inv in Hrun as ([p (Hin & Hal & Hid & _)] & _).
  exfalso. apply Hid. by apply Halone.
Qed.

Lemma decideTarget_throws_when_alone_witness :
  AIEngine.decideTarget (examplePlayer "ai-1" PlayerType.AI 3)
    [examplePlayer "player-0" PlayerType.HUMAN 0;
     examplePlayer "ai-1" PlayerType.AI 3] ∅ GAME_CONFIG exampleWorld = None.
Proof.
  apply decideTarget_throws_when_alone.
  intros p [<- | [<- | []]]; [discriminate | reflexivity].
Defined.





(** X8. Retaliation. When an alive actor other than the deciding one is in
    its grudge set and the first draw is below 4/5, the decision returns one
    of those actors, the one at index floor(r2 * n) among the n of them in
    seating order, after exactly two draws; the product is that of doubles,
    the exact product rounded to the nearest double. *)
Theorem decideTarget_retaliates (aiPlayer : Player) (allPlayers : list Player)
    (aiMemories : gmap string loc) (config : GameConfig) (w : World) :
  validDraws w ->
  closedAt w aiMemories (id aiPlayer) ->
  let grudgeTargets :=
    List.filter (fun p => includes (grudgesOf w aiMemories (id aiPlayer)) (id p))
                (aliveOthers aiPlayer allPlayers) in
  grudgeTargets <> [] ->
  (random w (drawn w) < 4 # 5)%Q ->
  exists (p : Player) (i : nat),
    AIEngine.decideTarget aiPlayer allPlayers aiMemories config w =
      Some (id p, afterDraw (afterDraw w)) /\
    Z.of_nat i = floorTimes (random w (S (drawn w))) (length grudgeTargets) /\
    (isDouble (random w (S (drawn w))) = true ->
     (Z.of_nat (length grudgeTargets) <= 2 ^ 53)%Z ->
     Z.of_nat i =
       Qfloor (round64 (random w (S (drawn w)) *
                        inject_Z (Z.of_nat (length grudgeTargets))))) /\
    grudgeTargets !! i = Some p /\
    In (id p) (grudgesOf w aiMemories (id aiPlayer)) /\
    In p allPlayers /\ isAlive p = true /\ id p <> id aiPlayer.
Proof.
  intros Hv Hclosed grudgeTargets Hne Hlt.
  rewrite (decideTarget_by_grudges _ _ _ _ _ Hclosed). cbv zeta.
  fold grudgeTargets. rewrite (proj2 (length_pos_nonempty _) Hne).
  unfold bind at 1. rewrite mathRandom_run, (proj2 (ltb_true _ _) Hlt).
  unfold bind. rewrite mathRandom_run.
  assert (Hrange : (0 <= floorTimes (random w (S (drawn w))) (length grudgeTargets)
                    < Z.of_nat (length grudgeTargets))%Z).
  { apply floorTimes_range; [apply Hv|]. destruct grudgeTargets; [done | simpl; lia]. }
  destruct (arrayAt_in_range grudgeTargets _ Hrange) as [p [Hp Hin]].
  exists p, (Z.to_nat (floorTimes (random w (S (drawn w))) (length grudgeTargets))).
  simpl. rewrite Hp. split; [done|]. split; [lia|].
  split.
  { intros Hd Hle. rewrite <- floorTimes_double; [lia | apply Hv | done | done]. }
  split; [by apply arrayAt_lookup in Hp as [Hp _]|].
  apply filter_In in Hin as [Hin Hinc].
  split; [by apply includes_In|]. by apply aliveOthers_In.
Qed.

Lemma grudgeWorld_closed : closedAt grudgeWorld grudgeMemories "ai-1".
Proof.
  intros l Hl. vm_compute in Hl. injection Hl as <-. vm_compute. eauto.
Qed.

Lemma decideTarget_retaliates_witness :
  exists p i,
    AIEngine.decideTarget (examplePlayer "ai-1" PlayerType.AI 3) examplePlayers
      grudgeMemories GAME_CONFIG grudgeWorld
      = Some (id p, afterDraw (afterDraw grudgeWorld)) /\
    examplePlayers !! i = Some p /\ id p = "player-0".
Proof.
  destruct (decideTarget_retaliates (examplePlayer "ai-1" PlayerType.AI 3)
              examplePlayers grudgeMemories GAME_CONFIG grudgeWorld)
    as (p & i & Hrun & _ & _ & Hi & _).
  - intros n. split; simpl; [discriminate | reflexivity].
  - exact grudgeWorld_closed.
  - vm_compute. discriminate.
  - reflexivity.
  - exists p, 0%nat. split; [exact Hrun|].
    vm_compute in Hrun. injection Hrun as Hid.
    vm_compute in Hi. destruct i as [|[|i]]; try discriminate Hi.
    injection Hi as <-. split; reflexivity.
Defined.





(** ** lib/aiEngine.ts: the turn of an autonomous actor *)

Lemma find_armed_none (s : GameState) :
  currentShooter s = None ->
  List.find (fun p => optEqb (Some (id p)) (currentShooter s)) (players s) = None.
Proof.
  intros ->. induction (players s) as [|p rest IH]; [done|]. exact IH.
Qed.

(** X11. [executeAITurn] does nothing when no actor is armed, when the armed
    id is not in the list, or when the armed actor is the human: it hands no
    state to [onUpdate], reads no draw and leaves the world as it is. *)
Theorem executeAITurn_idle (s : GameState) (config : GameConfig) (w : World) :
  (currentShooter s = None ->
     AIEngine.executeAITurn s config w = Some ([], w)) /\
  ((forall p,
      List.find (fun p => optEqb (Some (id p)) (currentShooter s)) (players s)
        = Some p -> type p = PlayerType.HUMAN) ->
     AIEngine.executeAITurn s config w = Some ([], w)).
Proof.
  split.
  - intros Hnone. unfold AIEngine.executeAITurn. by rewrite find_armed_none.
  - intros Hhuman. unfold AIEngine.executeAITurn.
    destruct (List.find _ (players s)) as [p|]; [|done].
    by rewrite (Hhuman p eq_refl).
Qed.

Lemma executeAITurn_idle_witness :
  AIEngine.executeAITurn exampleState GAME_CONFIG exampleWorld
    = Some ([], exampleWorld).
Proof.
  destruct (executeAITurn_idle exampleState GAME_CONFIG exampleWorld) as [_ H].
  apply H. intros p Hp. vm_compute in Hp. by injection Hp as <-.
Defined.

(** The three states of an AI turn, read off a run that returned. *)
Lemma executeAITurn_shape (s : GameState) (config : GameConfig) (w : World)
    (us : list GameState) (w' : World) (sh : Player) :
  AIEngine.executeAITurn s config w = Some (us, w') ->
  List.find (fun p => optEqb (Some (id p)) (currentShooter s)) (players s)
    = Some sh ->
  type sh = PlayerType.AI ->
  exists (t : string) (u2 : GameState) (rec : TurnRecord),
    us = [set_phase GamePhase.CHOOSING_TARGET (set_selectedTarget (Some t) s);
          u2;
          if GameEngine.isOver (GameEngine.checkGameOver (players u2)) then
            set_phase GamePhase.GAME_OVER u2
          else
            set_selectedTarget None
              (set_currentShooter None (set_phase GamePhase.SETUP u2))] /\
    phase u2 = GamePhase.SHOOTING /\
    currentShooter u2 = currentShooter s /\
    selectedTarget u2 = selectedTarget s /\
    turnHistory u2 = (turnHistory s ++ [rec])%list /\
    shooter rec = Some (id sh) /\ target rec = Some t /\
    ticks w' = S (ticks w).
Proof.
  unfold AIEngine.executeAITurn. intros Hrun Hfind Htype.
  rewrite Hfind, Htype in Hrun.
  change (negb (PlayerType.eqb PlayerType.AI PlayerType.AI)) with false in Hrun.
  cbv iota zeta in Hrun.
  apply bind_inv in Hrun as (r0 & w1 & Hr0 & Hrun).
  apply bind_inv in Hrun as (targetId & w2 & Hdec & Hrun).
  apply bind_inv in Hrun as (isHit & w3 & Hshot & Hrun).
  apply bind_inv in Hrun as ([newPlayers killed] & w4 & Hhit & Hrun).
  apply bind_inv in Hrun as (newMemories & w5 & Hmem & Hrun).
  apply bind_inv in Hrun as (newState & w6 & Hrec & Hret).
  unfold ret in Hret. injection Hret as <- <-.
  assert (Ht : ticks w5 = ticks w).
  { rewrite mathRandom_run in Hr0. injection Hr0 as _ <-.
    apply decideTarget_inv in Hdec as (_ & (_ & _ & _ & Ht2 & _) & _).
    rewrite attemptShot_run in Hshot. injection Hshot as _ <-.
    assert (Ht4 : ticks w4 = ticks w2).
    { destruct isHit; [|by inversion Hhit].
      destruct (arrayAt (players s) _); [|done]. by inversion Hhit. }
    assert (Ht5 : ticks w5 = ticks w4).
    { destruct (negb isHit); [|by inversion Hmem].
      destruct (String.prefix "ai-" targetId) eqn:Ep.
      - assert (Hc : closedAt w4 (aiMemories s) targetId).
        { intros l Hl. destruct (heap w4 !! l) eqn:Hh; [done|]. exfalso.
          unfold AIEngine.updateMemory in Hmem. rewrite Ep, Hl in Hmem.
          unfold bind, ret, load in Hmem. simpl in Hmem. by rewrite Hh in Hmem. }
        destruct (updateMemory_blank (aiMemories s) targetId (id sh) w4 Ep Hc)
          as (l & wm & Hrun' & _ & _ & _ & _ & _ & _ & _ & _ & _ & _ & Htm).
        rewrite Hrun' in Hmem. by injection Hmem as _ <-.
      - unfold AIEngine.updateMemory in Hmem. rewrite Ep in Hmem.
        by inversion Hmem. }
    rewrite Ht5, Ht4. simpl. exact Ht2. }
  unfold GameEngine.recordTurn, bind, dateNow, ret in Hrec.
  injection Hrec as <- <-.
  exists targetId. do 2 eexists. split.
  { refine (f_equal2 cons eq_refl (f_equal2 cons eq_refl (f_equal2 cons _ eq_refl))).
    reflexivity. }
  simpl. repeat (split; [reflexivity|]). by rewrite Ht.
Qed.

(** X12. A turn of an armed autonomous actor that returns hands three
    states to [onUpdate]. The first is the current state with the decided
    target selected, in phase ChoosingTarget. The second is the resolved
    state, in phase Shooting, with one more turn record naming the armed
    actor and the decided target; its selected target is the one of the
    current state, not the decided one. The third is the second in phase
    GameOver when win detection on its players says the game is over, and
    otherwise in phase Setup with no armed actor and no selected target. The
    clock is read once. *)
Theorem executeAITurn_three_updates (s : GameState) (config : GameConfig)
    (w : World) (us : list GameState) (w' : World) (sh : Player) :
  AIEngine.executeAITurn s config w = Some (us, w') ->
  List.find (fun p => optEqb (Some (id p)) (currentShooter s)) (players s)
    = Some sh ->
  type sh = PlayerType.AI ->
  exists (t : string) (u2 : GameState) (rec : TurnRecord),
    us = [set_phase GamePhase.CHOOSING_TARGET (set_selectedTarget (Some t) s);
          u2;
          if GameEngine.isOver (GameEngine.checkGameOver (players u2)) then
            set_phase GamePhase.GAME_OVER u2
          else
            set_selectedTarget None
              (set_currentShooter None (set_phase GamePhase.SETUP u2))] /\
    phase u2 = GamePhase.SHOOTING /\
    currentShooter u2 = currentShooter s /\
    selectedTarget u2 = selectedTarget s /\
    turnHistory u2 = (turnHistory s ++ [rec])%list /\
    shooter rec = Some (id sh) /\ target rec = Some t /\
    ticks w' = S (ticks w).
Proof. apply executeAITurn_shape. Qed.

Lemma executeAITurn_three_updates_witness :
  exists u1 u2 u3 w',
    AIEngine.executeAITurn aiArmedState GAME_CONFIG retaliationWorld
      = Some ([u1; u2; u3], w') /\
    selectedTarget u1 = Some "ai-2" /\ selectedTarget u2 = None /\
    phase u3 = GamePhase.SETUP.
Proof.
  assert (Hrun : exists us w',
            AIEngine.executeAITurn aiArmedState GAME_CONFIG retaliationWorld
              = Some (us, w')) by (do 2 eexists; vm_compute; reflexivity).
  destruct Hrun as (us & w' & Hrun).
  destruct (executeAITurn_three_updates aiArmedState GAME_CONFIG retaliationWorld
              us w' (examplePlayer "ai-1" PlayerType.AI 3) Hrun eq_refl eq_refl)
    as (t & u2 & rec & Hus & _ & _ & Hsel & _).
  vm_compute in Hrun. injection Hrun as Eus Ew. rewrite <- Eus in Hus.
  injection Hus as Ht Hu2 Hu3.
  do 4 eexists. split; [vm_compute; reflexivity|].
  split; [reflexivity|]. split; reflexivity.
Defined.

(** ** hooks/useGameState.ts: the turn history and the errors of a shot *)

Lemma optEqb_player0 (x : option string) :
  optEqb x (Some "player-0") = true <-> x = Some "player-0".
Proof.
  destruct x as [a|]; simpl; [|done]. rewrite String.eqb_eq.
  split; [by intros -> | by intros [= ->]].
Qed.

(** The record that [SHOT_RESULT] appends. *)
Lemma shotResult_record (s : GameState) (isHit : bool) (w : World)
    (s' : GameState) (w' : World) :
  gameReducer s (SHOT_RESULT isHit) w = Some (s', w') ->
  turnHistory s' =
    (turnHistory s ++
     [{| timestamp := clock w (ticks w);
         shooter := currentShooter s;
         target := selectedTarget s;
         wasBlank := negb isHit;
         killed := isHit && match selectedPlayer s with
                            | Some q => (health q <=? 1)%Z
                            | None => false
                            end |}])%list /\
  phase s' = phase s /\ currentShooter s' = currentShooter s /\
  selectedTarget s' = selectedTarget s /\
  ticks w' = S (ticks w) /\ clock w' = clock w /\
  random w' = random w /\ drawn w' = drawn w.
Proof.
  rewrite gameReducer_SHOT_RESULT. cbv zeta. intros Hrun.
  apply bind_inv in Hrun as ([newPlayers killed] & w1 & Hhit & Hrun).
  apply bind_inv in Hrun as (newMemories & w2 & Hmem & Hrun).
  apply bind_inv in Hrun as (recorded & w3 & Hrec & Hret).
  unfold ret in Hret. injection Hret as <- <-.
  assert (Hk : w1 = w /\
               killed = isHit && match selectedPlayer s with
                                 | Some q => (health q <=? 1)%Z
                                 | None => false
                                 end).
  { destruct isHit; [|by inversion Hhit].
    destruct (selectedPlayer s) as [q|]; [|done]. inversion Hhit; subst.
    split; [done|]. simpl.
    destruct (Z.ltb_spec 0 (health q - 1)), (Z.leb_spec (health q) 1);
      try done; lia. }
  destruct Hk as [-> ->].
  assert (Hw2 : ticks w2 = ticks w /\ clock w2 = clock w /\
                random w2 = random w /\ drawn w2 = drawn w).
  { destruct (negb isHit && optEqb (currentShooter s) (Some "player-0"));
      [|by inversion Hmem].
    destruct (selectedTarget s) as [t|]; [|done].
    destruct (String.prefix "ai-" t) eqn:Ep.
    - assert (Hc : closedAt w (aiMemories s) t).
      { intros l Hl. destruct (heap w !! l) eqn:Hh; [done|]. exfalso.
        unfold AIEngine.updateMemory in Hmem. rewrite Ep, Hl in Hmem.
        unfold bind, ret, load in Hmem. simpl in Hmem. by rewrite Hh in Hmem. }
      destruct (updateMemory_blank (aiMemories s) t "player-0" w Ep Hc)
        as (l & wm & Hrun' & _ & _ & _ & _ & _ & _ & _ & Hr & Hd & Hc' & Ht).
      rewrite Hrun' in Hmem. injection Hmem as _ <-. done.
    - unfold AIEngine.updateMemory in Hmem. rewrite Ep in Hmem.
      by inversion Hmem. }
  destruct Hw2 as (Ht & Hc & Hr & Hd).
  unfold GameEngine.recordTurn, bind, dateNow, ret in Hrec.
  injection Hrec as <- <-. simpl. rewrite Ht, Hc. by repeat split.
Qed.

(** X13. A [SHOT_RESULT] that returns appends exactly one record to the turn
    history. The record carries the clock reading, the armed actor and the
    selected target of the state, a blank flag that is the negation of the
    hit flag, and a kill flag that is set exactly when the shot is a hit and
    the target had at most one health point. The phase, the armed actor and
    the selected target are kept; the clock is read once and no draw is
    read. *)
Theorem shotResult_appends_record (s : GameState) (isHit : bool) (w : World)
    (s' : GameState) (w' : World) :
  gameReducer s (SHOT_RESULT isHit) w = Some (s', w') ->
  turnHistory s' =
    (turnHistory s ++
     [{| timestamp := clock w (ticks w);
         shooter := currentShooter s;
         target := selectedTarget s;
         wasBlank := negb isHit;
         killed := isHit && match selectedPlayer s with
                            | Some q => (health q <=? 1)%Z
                            | None => false
                            end |}])%list /\
  phase s' = phase s /\ currentShooter s' = currentShooter s /\
  selectedTarget s' = selectedTarget s /\
  ticks w' = S (ticks w) /\ clock w' = clock w /\
  random w' = random w /\ drawn w' = drawn w.
Proof. apply shotResult_record. Qed.

Lemma shotResult_appends_record_witness :
  exists s' w',
    gameReducer exampleState (SHOT_RESULT true) exampleWorld = Some (s', w') /\
    turnHistory s' =
      [{| timestamp := 0; shooter := Some "player-0"; target := Some "ai-2";
          wasBlank := false; killed := true |}].
Proof.
  assert (Hrun : exists s' w',
            gameReducer exampleState (SHOT_RESULT true) exampleWorld = Some (s', w'))
    by (do 2 eexists; reflexivity).
  destruct Hrun as (s' & w' & Hrun). exists s', w'. split; [exact Hrun|].
  destruct (shotResult_appends_record _ _ _ _ _ Hrun) as (Hh & _).
  rewrite Hh. reflexivity.
Defined.

Lemma findIndexFrom_none {A} (pred : A -> bool) (arr : list A) (i : Z) :
  (forall x, In x arr -> pred x = false) -> findIndexFrom pred arr i = (-1)%Z.
Proof.
  revert i. induction arr as [|a rest IH]; intros i Hall; [done|].
  simpl. rewrite (Hall a) by (by left). apply IH. intros x Hx. apply Hall. by right.
Qed.

Lemma optEqb_eq (x y : option string) : optEqb x y = true <-> x = y.
Proof.
  destruct x as [a|], y as [b|]; simpl; try done.
  rewrite String.eqb_eq. split; [by intros -> | by intros [= ->]].
Qed.

Lemma selectedPlayer_none_iff (s : GameState) :
  selectedPlayer s = None <->
  forall p, In p (players s) -> Some (id p) <> selectedTarget s.
Proof.
  unfold selectedPlayer. split.
  - intros Hnone p Hin Heq.
    destruct (findIndex_found
                (fun p => optEqb (Some (id p)) (selectedTarget s)) (players s))
      as (y & Hy & _); [|congruence].
    exists p. split; [done|]. by apply optEqb_eq.
  - intros Hall. unfold findIndex. rewrite findIndexFrom_none; [done|].
    intros x Hx. destruct (optEqb (Some (id x)) (selectedTarget s)) eqn:E; [|done].
    apply optEqb_eq in E. by apply Hall in Hx.
Qed.

(** X14. The errors of a shot resolution. A hit throws exactly when no
    actor of the list carries the selected target id, in particular when
    no target is selected. A blank, in a heap that holds the objects of the
    memory map, throws exactly when the human is armed and no target is
    selected. *)
Theorem shotResult_throws (s : GameState) (w : World) :
  (gameReducer s (SHOT_RESULT true) w = None <->
   forall p, In p (players s) -> Some (id p) <> selectedTarget s) /\
  (closed w (aiMemories s) ->
   (gameReducer s (SHOT_RESULT false) w = None <->
    currentShooter s = Some "player-0" /\ selectedTarget s = None)).
Proof.
  split.
  - rewrite <- selectedPlayer_none_iff.
    rewrite gameReducer_SHOT_RESULT. cbv zeta.
    destruct (selectedPlayer s) as [q|]; [|done]. split; [|done].
    intros H. exfalso. revert H. unfold bind. simpl. done.
  - intros Hclosed. rewrite gameReducer_SHOT_RESULT. cbv zeta.
    unfold bind at 1. unfold ret at 1. cbv beta iota.
    change (negb false) with true. rewrite andb_true_l.
    destruct (optEqb (currentShooter s) (Some "player-0")) eqn:Ecs.
    + apply optEqb_player0 in Ecs.
      destruct (selectedTarget s) as [t|] eqn:Est.
      * split; [|by intros [_ ?]]. intros H. exfalso. revert H.
        destruct (String.prefix "ai-" t) eqn:Ep.
        -- destruct (updateMemory_blank (aiMemories s) t "player-0" w Ep
                       (Hclosed t)) as (l & w1 & Hrun & _).
           unfold bind at 1. rewrite Hrun. unfold bind. simpl. done.
        -- unfold AIEngine.updateMemory. rewrite Ep. unfold bind. simpl. done.
      * split; [done|]. intros _. reflexivity.
    + split; [unfold bind; simpl; done|].
      intros [Hcs _]. apply optEqb_player0 in Hcs. congruence.
Qed.

Lemma shotResult_throws_witness :
  gameReducer (set_selectedTarget None exampleState) (SHOT_RESULT false)
              exampleWorld = None /\
  gameReducer (set_selectedTarget (Some "nobody") exampleState) (SHOT_RESULT true)
              exampleWorld = None.
Proof.
  split.
  - destruct (shotResult_throws (set_selectedTarget None exampleState) exampleWorld)
      as [_ H].
    apply H; [|split; reflexivity].
    intros k l Hl. simpl in Hl. rewrite lookup_empty in Hl. discriminate Hl.
  - destruct (shotResult_throws (set_selectedTarget (Some "nobody") exampleState)
                exampleWorld) as [H _].
    apply H. intros p [<- | [<- | [<- | []]]]; discriminate.
Defined.

(** ** Invariants of a session *)

Lemma executeAITurn_histories (s : GameState) (config : GameConfig) (w : World)
    (us : list GameState) (w' : World) :
  AIEngine.executeAITurn s config w = Some (us, w') ->
  us = [] \/
  exists u1 u2 u3 rec,
    us = [u1; u2; u3] /\ turnHistory u1 = turnHistory s /\
    turnHistory u2 = (turnHistory s ++ [rec])%list /\
    turnHistory u3 = turnHistory u2.
Proof.
  intros Hrun.
  destruct (List.find (fun p => optEqb (Some (id p)) (currentShooter s)) (players s))
    as [sh|] eqn:Hfind.
  - destruct (type sh) eqn:Htype.
    + left. unfold AIEngine.executeAITurn in Hrun. rewrite Hfind, Htype in Hrun.
      by inversion Hrun.
    + right.
      destruct (executeAITurn_shape s config w us w' sh Hrun Hfind Htype)
        as (t & u2 & rec & -> & _ & _ & _ & Hh & _).
      do 4 eexists. split; [reflexivity|]. split; [reflexivity|].
      split; [exact Hh|]. by destruct (GameEngine.isOver _).
  - left. unfold AIEngine.executeAITurn in Hrun. rewrite Hfind in Hrun.
    by inversion Hrun.
Qed.

Lemma sessionStep_history (s s' : GameState) :
  sessionStep s s' ->
  exists suffix,
    turnHistory s' = (turnHistory s ++ suffix)%list /\ (length suffix <= 1)%nat.
Proof.
  intros [s0 a w s1 w' Ha Hrun | s0 config w us w' i u u' Hrun Hu Hu'].
  - destruct a; try done;
      try (exists []; split; [inversion Hrun; subst; simpl; by rewrite app_nil_r
                             | simpl; lia]).
    apply shotResult_record in Hrun as (Hh & _).
    eexists. split; [exact Hh | simpl; lia].
  - destruct (executeAITurn_histories s0 config w us w' Hrun)
      as [-> | (u1 & u2 & u3 & rec & -> & H1 & H2 & H3)].
    + destruct i; simpl in Hu'; done.
    + destruct i as [|[|[|i]]]; simpl in Hu, Hu'; try done;
        inversion Hu; inversion Hu'; subst.
      * exists []. rewrite app_nil_r. split; [done | simpl; lia].
      * exists [rec]. rewrite H1. split; [done | simpl; lia].
      * exists []. rewrite app_nil_r. split; [done | simpl; lia].
Qed.

(** X15. The turn history is append-only. A step of a session keeps the
    records it finds, in their order, and appends at most one; after any
    number of steps the former history is a prefix of the new one. *)
Theorem turnHistory_append_only (s s' : GameState) :
  (sessionStep s s' ->
     exists suffix,
       turnHistory s' = (turnHistory s ++ suffix)%list /\
       (length suffix <= 1)%nat) /\
  (rtc sessionStep s s' -> turnHistory s `prefix_of` turnHistory s').
Proof.
  split; [apply sessionStep_history|].
  induction 1 as [s | s s1 s2 Hstep Hrest IH]; [done|].
  apply sessionStep_history in Hstep as (suffix & Hs & _).
  etrans; [|exact IH]. rewrite Hs. by apply prefix_app_r.
Qed.

Lemma turnHistory_append_only_witness :
  exists s' w',
    gameReducer exampleState (SHOT_RESULT false) exampleWorld = Some (s', w') /\
    turnHistory exampleState `prefix_of` turnHistory s'.
Proof.
  assert (Hrun : exists s' w',
            gameReducer exampleState (SHOT_RESULT false) exampleWorld = Some (s', w'))
    by (do 2 eexists; reflexivity).
  destruct Hrun as (s' & w' & Hrun). exists s', w'. split; [exact Hrun|].
  apply (proj2 (turnHistory_append_only exampleState s')).
  apply rtc_once. eapply step_action; [|exact Hrun]. reflexivity.
Defined.

(** X16. The roster of a session is fixed. In every state reached from a
    new game the list holds the same five actors at the same seats, with the
    id, name, type, position and avatar that [initializeGame] gave them; the
    ids are pairwise different. *)
Theorem roster_is_fixed (s : GameState) :
  reachable s ->
  map seat (players s) = initialSeats /\
  map id (players s) = ["player-0"; "ai-1"; "ai-2"; "ai-3"; "ai-4"] /\
  List.NoDup (map id (players s)) /\
  length (players s) = 5%nat.
Proof.
  intros Hreach. pose proof (reachable_seats s Hreach) as Hs.
  assert (Hid : map id (players s) = map (fun x => x.1.1.1.1) (map seat (players s))).
  { rewrite map_map. reflexivity. }
  rewrite Hs in Hid. simpl in Hid.
  split; [exact Hs|]. split; [exact Hid|]. split.
  - rewrite Hid. repeat (constructor; [simpl; intuition discriminate|]).
    constructor.
  - rewrite <- (length_map seat), Hs. reflexivity.
Qed.

Lemma roster_is_fixed_witness :
  exists s,
    reachable s /\ phase s = GamePhase.SHOOTING /\
    map id (players s) = ["player-0"; "ai-1"; "ai-2"; "ai-3"; "ai-4"].
Proof.
  assert (Hrun : exists s0 w0 s1 w1,
            GameEngine.initializeGame GAME_CONFIG exampleWorld = Some (s0, w0) /\
            gameReducer s0 SHOOT w0 = Some (s1, w1) /\
            phase s1 = GamePhase.SHOOTING).
  { do 4 eexists. split; [reflexivity|]. split; reflexivity. }
  destruct Hrun as (s0 & w0 & s1 & w1 & H0 & H1 & Hp).
  assert (Hreach : reachable s1).
  { eapply reach_step; [eapply reach_init; exact H0|].
    eapply step_action; [|exact H1]. reflexivity. }
  exists s1. split; [exact Hreach|]. split; [exact Hp|].
  exact (proj1 (proj2 (roster_is_fixed s1 Hreach))).
Defined.

Lemma hitOrSame_damagedAt (ps ps' : list Player) :
  hitOrSame ps ps' -> exists j, damagedAt j ps ps'.
Proof.
  intros [-> | (j & q & Hj & ->)].
  - exists 0%nat. split; [done|]. split; [done|]. intros p Hp.
    exists p. split; [done|]. split; [done|]. by left.
  - exists j. split; [apply length_insert|]. split.
    + intros i Hne. by apply list_lookup_insert_ne.
    + intros p Hp. rewrite Hj in Hp. injection Hp as <-.
      exists (GameEngine.applyDamage q).
      rewrite list_lookup_insert_eq by (by eapply lookup_lt_Some).
      split; [done|]. split; [done|]. by right.
Qed.

(** X17. No step of a session heals or moves anyone. From a state to the
    next at most one seat changes; the actor at that seat keeps its id, name,
    type, position and avatar and has the same health or exactly one point
    less. So the health at every seat never grows. *)
Theorem step_damages_at_most_one (s s' : GameState) :
  sessionStep s s' ->
  (exists j, damagedAt j (players s) (players s')) /\
  forall i p p',
    players s !! i = Some p -> players s' !! i = Some p' ->
    seat p' = seat p /\ (health p' <= health p)%Z.
Proof.
  intros Hstep. apply sessionStep_players, hitOrSame_damagedAt in Hstep.
  destruct Hstep as [j (Hlen & Hother & Hj)]. split; [by exists j|].
  intros i p p' Hp Hp'. destruct (decide (i = j)) as [->|Hne].
  - destruct (Hj p Hp) as (q & Hq & Hseat & Hh).
    rewrite Hq in Hp'. injection Hp' as <-. split; [done | lia].
  - rewrite (Hother i Hne), Hp in Hp'. injection Hp' as <-. split; [done | lia].
Qed.

Lemma step_damages_at_most_one_witness :
  exists s' w',
    gameReducer exampleState (SHOT_RESULT true) exampleWorld = Some (s', w') /\
    exists j, damagedAt j (players exampleState) (players s').
Proof.
  assert (Hrun : exists s' w',
            gameReducer exampleState (SHOT_RESULT true) exampleWorld = Some (s', w'))
    by (do 2 eexists; reflexivity).
  destruct Hrun as (s' & w' & Hrun). exists s', w'. split; [exact Hrun|].
  apply (step_damages_at_most_one exampleState s').
  eapply step_action; [|exact Hrun]. reflexivity.
Defined.

Lemma isOver_aliveCount (ps : list Player) :
  GameEngine.isOver (GameEngine.checkGameOver ps) = true <-> (aliveCount ps <= 1)%nat.
Proof.
  unfold GameEngine.checkGameOver, aliveCount.
  destruct (List.filter isAlive ps) as [|p [|q rest]]; simpl; split; intros H;
    try done; lia.
Qed.

Lemma rtc_aliveCount (s s' : GameState) :
  reachable s -> rtc sessionStep s s' ->
  reachable s' /\ (aliveCount (players s') <= aliveCount (players s))%nat.
Proof.
  intros Hreach Hsteps. induction Hsteps as [s | s s1 s2 Hstep Hrest IH].
  - split; [done | lia].
  - assert (Hreach1 : reachable s1) by (by eapply reach_step).
    destruct (IH Hreach1) as [Hr2 Hle]. split; [done|].
    destruct (hitOrSame_monotone _ _ (reachable_buried s Hreach)
                (sessionStep_players s s1 Hstep)) as (_ & _ & Hle1).
    lia.
Qed.

(** X18. Game over is permanent. Once win detection reports the game over
    on a state reached from a new game, it reports it over after any
    further steps of the session, and the number of alive actors after these
    steps is not larger. *)
Theorem game_over_is_permanent (s s' : GameState) :
  reachable s -> rtc sessionStep s s' ->
  (aliveCount (players s') <= aliveCount (players s))%nat /\
  (GameEngine.isOver (GameEngine.checkGameOver (players s)) = true ->
   GameEngine.isOver (GameEngine.checkGameOver (players s')) = true).
Proof.
  intros Hreach Hsteps.
  destruct (rtc_aliveCount s s' Hreach Hsteps) as [_ Hle]. split; [done|].
  rewrite !isOver_aliveCount. lia.
Qed.

Lemma game_over_is_permanent_witness :
  exists s s',
    reachable s /\ rtc sessionStep s s' /\
    (aliveCount (players s') <= aliveCount (players s))%nat.
Proof.
  assert (Hrun : exists s0 w0 s1 w1 s2 w2,
            GameEngine.initializeGame GAME_CONFIG exampleWorld = Some (s0, w0) /\
            gameReducer s0 (SELECT_TARGET "ai-1") w0 = Some (s1, w1) /\
            gameReducer s1 (SHOT_RESULT true) w1 = Some (s2, w2)).
  { do 6 eexists. split; [reflexivity|]. split; reflexivity. }
  destruct Hrun as (s0 & w0 & s1 & w1 & s2 & w2 & H0 & H1 & H2).
  assert (Hreach : reachable s0) by (eapply reach_init; exact H0).
  assert (Hsteps : rtc sessionStep s0 s2).
  { eapply rtc_l; [eapply step_action; [|exact H1]; reflexivity|].
    apply rtc_once. eapply step_action; [|exact H2]. reflexivity. }
  exists s0, s2. split; [exact Hreach|]. split; [exact Hsteps|].
  exact (proj1 (game_over_is_permanent s0 s2 Hreach Hsteps)).
Defined.

Lemma memoryInv_heap (m : gmap string loc) (w w' : World) :
  heap w' = heap w -> memoryInv m w -> memoryInv m w'.
Proof. intros Hh Hinv k l Hl. rewrite Hh. by apply Hinv. Qed.

Lemma memoryInv_closed (m : gmap string loc) (w : World) :
  memoryInv m w -> closed w m.
Proof.
  intros Hinv k l Hl. destruct (Hinv k l Hl) as (_ & memory & Hm & _). by exists memory.
Qed.

(** An update keeps the map and the heap fitting together, and the map it
    started from still fits the new heap. *)
Lemma updateMemory_memoryInv (m : gmap string loc) (targetId : option string)
    (shooterId : string) (wasBlank : bool) (w : World)
    (m' : gmap string loc) (w' : World) :
  memoryInv m w ->
  AIEngine.updateMemory m targetId shooterId wasBlank w = Some (m', w') ->
  memoryInv m' w' /\ memoryInv m w'.
Proof.
  intros Hinv Hrun. destruct wasBlank; [|by inversion Hrun; subst].
  destruct targetId as [victim|]; [|done].
  destruct (String.prefix "ai-" victim) eqn:Hp;
    [|unfold AIEngine.updateMemory in Hrun; rewrite Hp in Hrun;
      by inversion Hrun; subst].
  destruct (m !! victim) as [l|] eqn:Hm.
  - destruct (Hinv victim l Hm) as (_ & memory & Hh & Hid & Hne & Hnd).
    rewrite (updateMemory_existing m victim shooterId w l memory Hp Hm Hh) in Hrun.
    injection Hrun as <- <-.
    assert (Hmap : <[victim := l]> m = m) by (by apply insert_id).
    rewrite Hmap.
    destruct (includes (grudges memory) shooterId) eqn:Hinc; [done|].
    assert (Hnew : memoryInv m
              (setHeap (<[l := {| playerId := playerId memory;
                                  grudges := grudges memory ++ [shooterId] |}]>
                          (heap w)) w)).
    { intros k lk Hk. destruct (Hinv k lk Hk) as (Hpk & mk & Hhk & Hidk & Hnek & Hndk).
      split; [done|]. simpl. destruct (decide (lk = l)) as [->|Hnel].
      - rewrite lookup_insert_eq. eexists. split; [reflexivity|]. simpl.
        rewrite Hh in Hhk. injection Hhk as <-. split; [done|]. split.
        + by destruct (grudges memory).
        + pose proof (pushOnce_NoDup (grudges memory) shooterId Hnd) as H.
          unfold pushOnce in H. by rewrite Hinc in H.
      - rewrite lookup_insert_ne by done. by exists mk. }
    done.
  - rewrite (updateMemory_new m victim shooterId w Hp Hm) in Hrun.
    injection Hrun as <- <-.
    pose proof (fresh_not_allocated w) as Hfresh.
    assert (Hold : memoryInv m
              (setHeap (<[fresh (dom (heap w)) :=
                            {| playerId := victim; grudges := [shooterId] |}]>
                          (heap w)) w)).
    { intros k lk Hk. destruct (Hinv k lk Hk) as (Hpk & mk & Hhk & Hrest).
      split; [done|]. simpl. exists mk. split; [|done].
      rewrite lookup_insert_ne; [done|]. intros <-. congruence. }
    split; [|done]. intros k lk Hk.
    destruct (decide (k = victim)) as [->|Hne].
    + rewrite lookup_insert_eq in Hk. injection Hk as <-. split; [done|].
      simpl. rewrite lookup_insert_eq. eexists. split; [reflexivity|]. simpl.
      split; [done|]. split; [done|]. repeat constructor. intros [].
    + rewrite lookup_insert_ne in Hk by done. by apply Hold.
Qed.

Lemma reducer_memoryInv (s : GameState) (a : GameAction) (w : World)
    (s' : GameState) (w' : World) :
  sessionAction a = true ->
  gameReducer s a w = Some (s', w') ->
  memoryInv (aiMemories s) w -> memoryInv (aiMemories s') w'.
Proof.
  intros Ha Hrun Hinv.
  destruct a; try done; try (by inversion Hrun; subst).
  rewrite gameReducer_SHOT_RESULT in Hrun. cbv zeta in Hrun.
  apply bind_inv in Hrun as ([newPlayers killed] & w1 & Hhit & Hrun).
  apply bind_inv in Hrun as (newMemories & w2 & Hmem & Hrun).
  apply bind_inv in Hrun as (recorded & w3 & Hrec & Hret).
  unfold ret in Hret. injection Hret as <- <-.
  apply recordTurn_run in Hrec as (_ & Hm & _ & _ & _ & Hh & _).
  rewrite Hm. simpl. apply (memoryInv_heap _ w2); [done|].
  assert (Hw1 : w1 = w).
  { destruct isHit; [|by inversion Hhit].
    destruct (selectedPlayer s); [|done]. by inversion Hhit. }
  subst w1.
  destruct (negb isHit && optEqb (currentShooter s) (Some "player-0")).
  - by destruct (updateMemory_memoryInv _ _ _ _ _ _ _ Hinv Hmem).
  - by inversion Hmem; subst.
Qed.

Lemma executeAITurn_memoryInv (s : GameState) (config : GameConfig) (w : World)
    (us : list GameState) (w' : World) :
  AIEngine.executeAITurn s config w = Some (us, w') ->
  memoryInv (aiMemories s) w ->
  forall u, In u us -> memoryInv (aiMemories u) w'.
Proof.
  unfold AIEngine.executeAITurn. intros Hrun Hinv.
  destruct (List.find _ (players s)) as [sh|];
    [|inversion Hrun; subst; by intros u []].
  destruct (negb (PlayerType.eqb (type sh) PlayerType.AI));
    [inversion Hrun; subst; by intros u []|].
  cbv zeta in Hrun.
  apply bind_inv in Hrun as (r0 & w1 & Hr0 & Hrun).
  apply bind_inv in Hrun as (targetId & w2 & Hdec & Hrun).
  apply bind_inv in Hrun as (isHit & w3 & Hshot & Hrun).
  apply bind_inv in Hrun as ([newPlayers killed] & w4 & Hhit & Hrun).
  apply bind_inv in Hrun as (newMemories & w5 & Hmem & Hrun).
  apply bind_inv in Hrun as (newState & w6 & Hrec & Hret).
  unfold ret in Hret. injection Hret as <- <-.
  assert (Hh4 : heap w4 = heap w).
  { rewrite mathRandom_run in Hr0. injection Hr0 as _ <-.
    apply decideTarget_inv in Hdec as (_ & (Hh2 & _) & _).
    rewrite attemptShot_run in Hshot. injection Hshot as _ <-.
    assert (Hw4 : w4 = afterDraw w2).
    { destruct isHit; [|by inversion Hhit].
      destruct (arrayAt (players s) _); [|done]. by inversion Hhit. }
    rewrite Hw4. simpl. exact Hh2. }
  apply recordTurn_run in Hrec as (_ & Hm & _ & _ & _ & Hh6 & _). simpl in Hm.
  assert (Hboth : memoryInv newMemories w5 /\ memoryInv (aiMemories s) w5).
  { pose proof (memoryInv_heap _ _ _ Hh4 Hinv) as Hinv4.
    destruct (negb isHit).
    - by apply (updateMemory_memoryInv _ _ _ _ _ _ _ Hinv4 Hmem).
    - by inversion Hmem; subst. }
  destruct Hboth as [Hnew Hold].
  intros u [<- | [<- | [<- | []]]].
  - by apply (memoryInv_heap _ w5).
  - rewrite Hm. by apply (memoryInv_heap _ w5).
  - assert (Hm3 : aiMemories
              (if GameEngine.isOver (GameEngine.checkGameOver newPlayers)
               then set_phase GamePhase.GAME_OVER newState
               else set_selectedTarget None
                      (set_currentShooter None
                         (set_phase GamePhase.SETUP newState)))
              = aiMemories newState) by (by destruct (GameEngine.isOver _)).
    rewrite Hm3, Hm. by apply (memoryInv_heap _ w5).
Qed.

(** X19. The grudge memory stays well formed through a session. In every
    state reached from a new game, together with the world it was reached
    in, every key of the memory map starts with "ai-" and refers to an
    object of the heap whose [playerId] is that key and whose grudge list is
    not empty and holds no id twice. In particular no reference of the map
    dangles. *)
Theorem memory_stays_well_formed (s : GameState) (w : World) :
  sessionRun s w ->
  memoryInv (aiMemories s) w /\ closed w (aiMemories s).
Proof.
  intros Hrun.
  assert (Hinv : memoryInv (aiMemories s) w).
  { induction Hrun as [config w s w' Hinit
                      | s w a s' w' Hrun IH Ha Hstep
                      | s w config us w' u Hrun IH Hai Hu
                      | s w w' Hrun IH Hh].
    - inversion Hinit; subst. intros k l Hl. simpl in Hl.
      rewrite lookup_empty in Hl. discriminate Hl.
    - by eapply reducer_memoryInv.
    - by eapply executeAITurn_memoryInv.
    - by eapply memoryInv_heap. }
  split; [exact Hinv | by apply memoryInv_closed].
Qed.

Lemma memory_stays_well_formed_witness :
  exists s w,
    sessionRun s w /\ grudgesOf w (aiMemories s) "ai-2" = ["player-0"] /\
    memoryInv (aiMemories s) w.
Proof.
  assert (Hrun : exists s0 w0 s1 w1 s2 w2 s3 w3,
            GameEngine.initializeGame GAME_CONFIG exampleWorld = Some (s0, w0) /\
            gameReducer s0 (SET_SPINNER_RESULT 0 "player-0") w0 = Some (s1, w1) /\
            gameReducer s1 (SELECT_TARGET "ai-2") w1 = Some (s2, w2) /\
            gameReducer s2 (SHOT_RESULT false) w2 = Some (s3, w3) /\
            grudgesOf w3 (aiMemories s3) "ai-2" = ["player-0"]).
  { do 8 eexists. split; [reflexivity|]. split; [reflexivity|].
    split; [reflexivity|]. split; [vm_compute; reflexivity | reflexivity]. }
  destruct Hrun as (s0 & w0 & s1 & w1 & s2 & w2 & s3 & w3 & H0 & H1 & H2 & H3 & Hg).
  assert (Hs : sessionRun s3 w3).
  { refine (run_action _ _ (SHOT_RESULT false) _ _ _ eq_refl H3).
    refine (run_action _ _ (SELECT_TARGET "ai-2") _ _ _ eq_refl H2).
    refine (run_action _ _ (SET_SPINNER_RESULT 0 "player-0") _ _ _ eq_refl H1).
    eapply run_init. exact H0. }
  exists s3, w3. split; [exact Hs|]. split; [exact Hg|].
  exact (proj1 (memory_stays_well_formed s3 w3 Hs)).
Defined.

(** ** The components *)

Lemma hearts_seq (k a n : nat) :
  map (fun i => (i <? k)%nat) (seq a n) =
    (replicate (Nat.min n (k - a)) true
     ++ replicate (n - Nat.min n (k - a)) false)%list.
Proof.
  revert a. induction n as [|n IH]; intros a; [done|].
  simpl seq. simpl map. rewrite IH.
  destruct (Nat.ltb_spec a k) as [Hlt | Hge].
  - replace (Nat.min (S n) (k - a)) with (S (Nat.min n (k - S a))) by lia.
    simpl. reflexivity.
  - replace (Nat.min (S n) (k - a)) with 0%nat by lia.
    replace (Nat.min n (k - S a)) with 0%nat by lia.
    simpl. by rewrite Nat.sub_0_r.
Qed.

(** X20. The health bar shows [max] hearts, none for a negative [max]. The
    filled hearts come first and there are as many as the health, at most
    [max]; a health of zero or less fills none. *)
Theorem hearts_filled_first (current max : Z) :
  length (HealthBar.hearts current max) = Z.to_nat max /\
  HealthBar.hearts current max =
    (replicate (Z.to_nat (Z.min current max)) true
     ++ replicate (Z.to_nat max - Z.to_nat (Z.min current max)) false)%list.
Proof.
  unfold HealthBar.hearts. split; [by rewrite length_map, length_seq|].
  rewrite (map_ext _ (fun i => (i <? Z.to_nat current)%nat)).
  - rewrite hearts_seq. rewrite Nat.sub_0_r.
    replace (Nat.min (Z.to_nat max) (Z.to_nat current))
      with (Z.to_nat (Z.min current max)) by lia.
    reflexivity.
  - intros i. destruct (Z.ltb_spec (Z.of_nat i) current),
      (Nat.ltb_spec i (Z.to_nat current)); try done; lia.
Qed.

Lemma find_head_of_filter {A} (f : A -> bool) (l : list A) :
  List.find f l = List.filter f l !! 0%nat.
Proof.
  induction l as [|a rest IH]; [done|]. simpl. by destruct (f a).
Qed.

(** X21. In phase GameOver the status line agrees with win detection: when
    win detection names a winner, the line is that actor's name followed by
    " wins!", and when no actor is alive it is "Everyone is dead!". The line
    is computed from the first alive actor of the list, so with two or more
    alive actors it names the first of them. *)
Theorem status_names_the_winner (s : GameState) :
  phase s = GamePhase.GAME_OVER ->
  (forall p, GameEngine.winner (GameEngine.checkGameOver (players s)) = Some p ->
     GameStatus.getStatusMessage s = name p ++ " wins!") /\
  (aliveCount (players s) = 0%nat ->
     GameStatus.getStatusMessage s = "Everyone is dead!") /\
  (forall p, List.filter isAlive (players s) !! 0%nat = Some p ->
     GameStatus.getStatusMessage s = name p ++ " wins!").
Proof.
  intros Hphase. unfold GameStatus.getStatusMessage. rewrite Hphase.
  cbv zeta. rewrite find_head_of_filter.
  unfold GameEngine.checkGameOver, aliveCount.
  destruct (List.filter isAlive (players s)) as [|a [|b rest]]; simpl;
    repeat split; intros; simplify_eq; done.
Qed.

Lemma status_names_the_winner_witness :
  GameStatus.getStatusMessage
    (set_phase GamePhase.GAME_OVER
       (set_players [examplePlayer "You" PlayerType.HUMAN 0;
                     examplePlayer "Boris" PlayerType.AI 1] exampleState))
    = "Boris wins!".
Proof.
  destruct (status_names_the_winner
              (set_phase GamePhase.GAME_OVER
                 (set_players [examplePlayer "You" PlayerType.HUMAN 0;
                               examplePlayer "Boris" PlayerType.AI 1] exampleState))
              eq_refl) as (H & _).
  apply (H (examplePlayer "Boris" PlayerType.AI 1)). reflexivity.
Defined.

Lemma selectedPlayer_of_id (s : GameState) (p : Player) :
  List.NoDup (map id (players s)) -> In p (players s) ->
  selectedPlayer (set_selectedTarget (Some (id p)) s) = Some p.
Proof.
  intros Hnd Hin. unfold selectedPlayer. simpl.
  destruct (findIndex_found (fun q => String.eqb (id q) (id p)) (players s))
    as (y & Hy & Hpy).
  { exists p. split; [done | apply String.eqb_refl]. }
  rewrite Hy. f_equal. apply String.eqb_eq in Hpy.
  apply arrayAt_lookup in Hy as [Hy _].
  apply (NoDup_ids_same (players s)); try done.
  apply list_elem_of_In. by eapply list_elem_of_lookup_2.
Qed.

(** X22. A card answers a click only while the human is choosing a target,
    and only if its actor is alive and is not "player-0"; any other click
    leaves the state as it is. With pairwise different ids, after a click
    that is answered the actor of the card is the one that the next shot
    resolution damages, so a hit lands on an alive actor and the stored
    health stays non-negative. *)
Theorem card_click_selects_alive_target (s : GameState) (player : Player)
    (w : World) :
  (PlayerCard.canBeTargeted s player = false ->
     PlayerCard.onClick s player w = Some (s, w)) /\
  (PlayerCard.canBeTargeted s player = true ->
     phase s = GamePhase.CHOOSING_TARGET /\
     currentShooter s = Some "player-0" /\
     isAlive player = true /\ id player <> "player-0" /\
     PlayerCard.onClick s player w =
       Some (set_selectedTarget (Some (id player)) s, w) /\
     (List.NoDup (map id (players s)) -> In player (players s) ->
      healthy (players s) ->
      selectedPlayer (set_selectedTarget (Some (id player)) s) = Some player /\
      forall isHit s' w',
        gameReducer (set_selectedTarget (Some (id player)) s)
                    (SHOT_RESULT isHit) w = Some (s', w') ->
        healthy (players s'))).
Proof.
  unfold PlayerCard.onClick. split; [by intros ->|].
  intros Hcan. rewrite Hcan. unfold PlayerCard.canBeTargeted in Hcan.
  apply andb_true_iff in Hcan as [Hcan Hnot].
  apply andb_true_iff in Hcan as [Hcan Halive].
  apply andb_true_iff in Hcan as [Hphase Hshooter].
  apply negb_true_iff, String.eqb_neq in Hnot.
  apply optEqb_player0 in Hshooter.
  split; [by destruct (phase s)|]. split; [done|]. split; [done|].
  split; [done|]. split; [reflexivity|].
  intros Hnd Hin Hhealthy.
  pose proof (selectedPlayer_of_id s player Hnd Hin) as Hsel.
  split; [exact Hsel|]. intros isHit s' w' Hrun.
  destruct (sessionAction_players _ (SHOT_RESULT isHit) w s' w' eq_refl Hrun)
    as [-> | (j & q & _ & Hq & Hj & ->)]; [done|].
  rewrite Hsel in Hq. injection Hq as <-.
  by apply healthy_damage.
Qed.

Lemma card_click_selects_alive_target_witness :
  exists s' w',
    gameReducer
      (set_selectedTarget (Some "ai-2")
         (set_phase GamePhase.CHOOSING_TARGET exampleState))
      (SHOT_RESULT true) exampleWorld = Some (s', w') /\
    healthy (players s').
Proof.
  destruct (card_click_selects_alive_target
              (set_phase GamePhase.CHOOSING_TARGET exampleState)
              (examplePlayer "ai-2" PlayerType.AI 1) exampleWorld) as [_ H].
  destruct (H eq_refl) as (_ & _ & _ & _ & _ & Hshot).
  destruct Hshot as [_ Hshot].
  - simpl. repeat (constructor; [simpl; intuition discriminate|]). constructor.
  - simpl. tauto.
  - repeat constructor; simpl; discriminate.
  - do 2 eexists. split; [reflexivity|].
    eapply (Hshot true). reflexivity.
Defined.

(** ** contexts/GameContext.tsx: the buttons *)

(** X23. The shoot button reads one draw, resolves the shot through the
    reducer, and then decides between [GAME_OVER] and [NEXT_TURN] by win
    detection on the players of the state it was pressed in, those before
    the shot. So when two or more actors are alive at the press, the final
    phase is Setup with no armed actor and no selected target, also when
    the shot leaves a single actor alive. *)
Theorem shoot_checks_players_before_the_shot (s : GameState) (w : World)
    (s' : GameState) (w' : World) :
  GameContext.shoot s w = Some (s', w') ->
  hitOrSame (players s) (players s') /\
  length (turnHistory s') = S (length (turnHistory s)) /\
  drawn w' = S (drawn w) /\
  (GameEngine.isOver (GameEngine.checkGameOver (players s)) = true ->
     phase s' = GamePhase.GAME_OVER) /\
  ((2 <= aliveCount (players s))%nat ->
     phase s' = GamePhase.SETUP /\ currentShooter s' = None /\
     selectedTarget s' = None).
Proof.
  unfold GameContext.shoot. intros Hrun.
  apply bind_inv in Hrun as (shooting & w1 & Hshoot & Hrun).
  apply bind_inv in Hrun as (isHit & w2 & Hshot & Hrun).
  apply bind_inv in Hrun as (resolved & w3 & Hres & Hrun).
  cbv zeta in Hrun. inversion Hshoot; subst. clear Hshoot.
  rewrite attemptShot_run in Hshot. injection Hshot as _ <-.
  pose proof (sessionAction_players _ (SHOT_RESULT isHit) _ _ _ eq_refl Hres) as Hps.
  pose proof (shotResult_record _ _ _ _ _ Hres) as (Hh & _ & _ & _ & _ & _ & _ & Hd).
  assert (Hhit : hitOrSame (players s) (players resolved)).
  { destruct Hps as [-> | (j & q & _ & _ & Hj & ->)]; [by left | right; eauto]. }
  assert (Hlen : length (turnHistory resolved) = S (length (turnHistory s))).
  { rewrite Hh, length_app. simpl. lia. }
  destruct (GameEngine.isOver (GameEngine.checkGameOver (players s))) eqn:Hover;
    inversion Hrun; subst; simpl.
  - split; [done|]. split; [done|]. split; [done|]. split; [done|].
    intros H2. apply isOver_aliveCount in Hover. lia.
  - split; [done|]. split; [done|]. split; [done|]. split; [done|]. done.
Qed.

Lemma shoot_checks_players_before_the_shot_witness :
  exists s' w',
    GameContext.shoot lastDuelState hitWorld = Some (s', w') /\
    aliveCount (players s') = 1%nat /\
    GameEngine.isOver (GameEngine.checkGameOver (players s')) = true /\
    phase s' = GamePhase.SETUP.
Proof.
  assert (Hrun : exists s' w',
            GameContext.shoot lastDuelState hitWorld = Some (s', w') /\
            aliveCount (players s') = 1%nat /\
            GameEngine.isOver (GameEngine.checkGameOver (players s')) = true).
  { do 2 eexists. split; [vm_compute; reflexivity|]. split; reflexivity. }
  destruct Hrun as (s' & w' & Hrun & Hcount & Hover).
  exists s', w'. split; [exact Hrun|]. split; [exact Hcount|].
  split; [exact Hover|].
  destruct (shoot_checks_players_before_the_shot _ _ _ _ Hrun)
    as (_ & _ & _ & _ & H).
  apply H. vm_compute. lia.
Defined.

Lemma spinRevolver_run (s : GameState) (w : World) :
  validDraws w ->
  List.filter isAlive (players s) <> [] ->
  exists shooter result,
    GameEngine.spinRevolver s w = Some (result, afterDraw (afterDraw w)) /\
    GameEngine.shooterId result = id shooter /\
    In shooter (players s) /\ isAlive shooter = true.
Proof.
  intros Hv Hne.
  set (alivePlayers := List.filter isAlive (players s)) in *.
  destruct (arrayAt_in_range alivePlayers
              (floorTimes (random w (drawn w)) (length alivePlayers)))
    as [shooter [Hs Hin]].
  { apply floorTimes_range; [apply Hv|]. destruct alivePlayers; [done | simpl; lia]. }
  exists shooter. unfold GameEngine.spinRevolver, bind. rewrite mathRandom_run.
  fold alivePlayers. rewrite Hs. rewrite mathRandom_run.
  eexists. split; [reflexivity|]. split; [reflexivity|].
  by apply filter_In in Hin.
Qed.

Lemma spin_press_unarmed (s : GameState) (config : GameConfig)
    (w : World) :
  validDraws w ->
  currentShooter s = None ->
  List.filter isAlive (players s) <> [] ->
  exists shooter rotation s',
    GameContext.spinRevolver s config w = Some (s', afterDraw (afterDraw w)) /\
    In shooter (players s) /\ isAlive shooter = true /\
    s' = set_phase GamePhase.CHOOSING_TARGET
           (set_currentShooter (Some (id shooter))
              (set_revolverRotation rotation (set_phase GamePhase.SPINNING s))) /\
    (id shooter <> "player-0" ->
       GameControls.canSpin s' = false /\ GameControls.canShoot s' = false /\
       forall p, PlayerCard.canBeTargeted s' p = false).
Proof.
  intros Hv Hnone Hne.
  destruct (spinRevolver_run s w Hv Hne) as (shooter & result & Hspin & Hid & Hin & Hal).
  exists shooter, (GameEngine.newRotation result).
  unfold GameContext.spinRevolver.
  unfold bind at 1. unfold gameReducer at 1. unfold ret at 1.
  unfold bind at 1. rewrite Hspin.
  unfold bind at 1. unfold gameReducer at 1. unfold ret at 1.
  assert (Hidle : AIEngine.executeAITurn s config (afterDraw (afterDraw w))
                  = Some ([], afterDraw (afterDraw w))).
  { unfold AIEngine.executeAITurn. by rewrite find_armed_none. }
  assert (Hfinal : forall armed,
            match List.find (fun p => String.eqb (id p) (GameEngine.shooterId result))
                            (players s) with
            | Some p =>
                if PlayerType.eqb (type p) PlayerType.AI then
                  let* updates := AIEngine.executeAITurn s config in
                  deliver armed updates
                else ret armed
            | None => ret armed
            end (afterDraw (afterDraw w)) = Some (armed, afterDraw (afterDraw w))).
  { intros armed. destruct (List.find _ (players s)) as [p|]; [|done].
    destruct (PlayerType.eqb (type p) PlayerType.AI); [|done].
    unfold bind. by rewrite Hidle. }
  rewrite Hfinal, Hid. eexists. split; [reflexivity|].
  split; [done|]. split; [done|]. split; [reflexivity|].
  intros Hnot. split; [reflexivity|].
  apply String.eqb_neq in Hnot. split.
  - unfold GameControls.canShoot. simpl. rewrite Hnot. reflexivity.
  - intros p. unfold PlayerCard.canBeTargeted. simpl. rewrite Hnot. reflexivity.
Qed.

Lemma reachable_setup_unarmed (s : GameState) :
  reachable s -> phase s = GamePhase.SETUP -> currentShooter s = None.
Proof.
  induction 1 as [config w s w' Hinit | s s' Hreach IH Hstep].
  - inversion Hinit; subst. done.
  - destruct Hstep as [s0 a w s1 w' Ha Hrun | s0 config w us w' i u u' Hrun Hu Hu'].
    + destruct a; try done; try (inversion Hrun; subst; simpl; by auto).
      apply shotResult_record in Hrun as (_ & Hp & Hc & _).
      rewrite Hp, Hc. exact IH.
    + destruct (List.find (fun p => optEqb (Some (id p)) (currentShooter s0))
                          (players s0)) as [sh|] eqn:Hfind.
      * destruct (type sh) eqn:Htype.
        -- unfold AIEngine.executeAITurn in Hrun. rewrite Hfind, Htype in Hrun.
           inversion Hrun; subst. destruct i; simpl in Hu'; done.
        -- destruct (executeAITurn_shape s0 config w us w' sh Hrun Hfind Htype)
             as (t & u2 & rec & -> & Hp2 & _).
           destruct i as [|[|[|i]]]; simpl in Hu, Hu'; try done;
             inversion Hu; inversion Hu'; subst; try done.
           ++ rewrite Hp2. done.
           ++ by destruct (GameEngine.isOver _).
      * unfold AIEngine.executeAITurn in Hrun. rewrite Hfind in Hrun.
        inversion Hrun; subst. destruct i; simpl in Hu'; done.
Qed.

(** X24. In a session, when the spin button is enabled, someone is alive
    and the draws are of the unit interval, pressing it arms an alive actor
    of the list and moves to phase ChoosingTarget; nothing else of the state
    changes but the rotation. The turn of an autonomous actor is run on the
    state the button was pressed in, where nobody is armed, so it hands no
    update: no target is selected and no shot is resolved. When the armed
    actor is autonomous, the spin button, the shoot button and every card
    are then disabled. *)
Theorem spin_leaves_ai_turn_idle (s : GameState) (config : GameConfig)
    (w : World) :
  reachable s ->
  GameControls.canSpin s = true ->
  validDraws w ->
  List.filter isAlive (players s) <> [] ->
  exists shooter rotation s',
    GameContext.spinRevolver s config w = Some (s', afterDraw (afterDraw w)) /\
    In shooter (players s) /\ isAlive shooter = true /\
    s' = set_phase GamePhase.CHOOSING_TARGET
           (set_currentShooter (Some (id shooter))
              (set_revolverRotation rotation (set_phase GamePhase.SPINNING s))) /\
    (type shooter = PlayerType.AI ->
       GameControls.canSpin s' = false /\ GameControls.canShoot s' = false /\
       forall p, PlayerCard.canBeTargeted s' p = false).
Proof.
  intros Hreach Hcan Hv Hne.
  assert (Hsetup : phase s = GamePhase.SETUP).
  { unfold GameControls.canSpin in Hcan. by destruct (phase s). }
  pose proof (reachable_setup_unarmed s Hreach Hsetup) as Hnone.
  destruct (spin_press_unarmed s config w Hv Hnone Hne)
    as (shooter & rotation & s' & Hrun & Hin & Hal & Hs' & Hstuck).
  exists shooter, rotation, s'. repeat (split; [done|]).
  intros Htype. apply Hstuck. intros Hid.
  pose proof (reachable_seats s Hreach) as Hseats.
  assert (Hseat : In (seat shooter) initialSeats).
  { rewrite <- Hseats. by apply in_map. }
  unfold seat in Hseat. rewrite Hid, Htype in Hseat. simpl in Hseat.
  repeat (destruct Hseat as [Hseat | Hseat]; [discriminate Hseat|]). done.
Qed.

Lemma spin_leaves_ai_turn_idle_witness :
  exists s0 w0 s',
    GameEngine.initializeGame GAME_CONFIG exampleWorld = Some (s0, w0) /\
    GameContext.spinRevolver s0 GAME_CONFIG w0 = Some (s', afterDraw (afterDraw w0)) /\
    currentShooter s' = Some "ai-1" /\
    GameControls.canSpin s' = false /\ GameControls.canShoot s' = false /\
    forall p, PlayerCard.canBeTargeted s' p = false.
Proof.
  assert (Hinit : exists s0 w0,
            GameEngine.initializeGame GAME_CONFIG exampleWorld = Some (s0, w0) /\
            random w0 = random exampleWorld)
    by (do 2 eexists; split; reflexivity).
  destruct Hinit as (s0 & w0 & Hinit & Hr).
  assert (Hreach : reachable s0) by (eapply reach_init; exact Hinit).
  destruct (spin_leaves_ai_turn_idle s0 GAME_CONFIG w0 Hreach)
    as (shooter & rotation & s' & Hrun & Hin & _ & Hs' & Hstuck).
  - injection Hinit as <- _. reflexivity.
  - intros n. rewrite Hr. apply exampleWorld_valid.
  - injection Hinit as <- _. discriminate.
  - exists s0, w0, s'. split; [exact Hinit|]. split; [exact Hrun|].
    assert (Hseat : In (seat shooter) initialSeats).
    { rewrite <- (reachable_seats s0 Hreach). by apply in_map. }
    injection Hinit as Hs0 Hw0. rewrite <- Hs0, <- Hw0 in Hrun.
    vm_compute in Hrun. injection Hrun as Hs''.
    assert (Hshooter : currentShooter s' = Some "ai-1") by (by rewrite <- Hs'').
    split; [exact Hshooter|]. apply Hstuck.
    rewrite Hs' in Hshooter. simpl in Hshooter. injection Hshooter as Hid.
    unfold seat in Hseat. rewrite Hid in Hseat.
    destruct Hseat as [?|[?|[?|[?|[?|[]]]]]]; simplify_eq; done.
Defined.

Lemma merge_fullPayload (s u : GameState) : merge s (fullPayload u) = u.
Proof. by destruct u. Qed.

(** X25. An [UPDATE_STATE] that carries a whole state replaces the state
    of the reducer, whatever it held. So the updates of an AI turn, delivered
    in order, leave the reducer in the last of them, or as it was when there
    is none; the world is not touched. *)
Theorem updates_replace_the_state (current : GameState) (w : World) :
  (forall u, gameReducer current (UPDATE_STATE (fullPayload u)) w = Some (u, w)) /\
  (forall updates, deliver current updates w = Some (default current (last updates), w)).
Proof.
  split.
  - intros u. simpl. unfold ret. by rewrite merge_fullPayload.
  - intros updates. revert current.
    induction updates as [|u rest IH]; intros current; [done|].
    cbn [deliver]. unfold bind. simpl gameReducer. unfold ret at 1.
    rewrite merge_fullPayload, IH. destruct rest as [|g rest]; [reflexivity|].
    change (last (u :: g :: rest)) with (last (g :: rest)).
    destruct (proj2 (last_is_Some (g :: rest)) ltac:(done)) as [x ->].
    reflexivity.
Qed.
